(** * Numerical quadrature cells of [lecture-08.ipynb]

    The notebook holds three executable cells: the Trapezoidal rule
    ([integral1]), the Euler-McLaurin error check ([error_mc]) and Simpson's
    rule ([integral]).  Each cell is a script over the variables [f], [a],
    [b] and [N]; here every cell is a function of those variables, and the
    cell as written is the function at the notebook's own values.

    The cells are embedded twice.  First in exact arithmetic, with Python
    floats as real numbers: this is the rule the notebook derives, and what
    is proved of it holds of a run only up to the effects of rounding.  Then,
    in [Double], on IEEE doubles as Python and numpy compute: there rounding
    can change the length of an [arange], and with it the result.  Python
    integers are [Z]. *)

From Stdlib Require Import Reals Lra Lia ZArith List Zfloor Permutation.
From Stdlib Require PrimFloat FloatOps SpecFloat Uint63.
Import ListNotations.

#[local] Open Scope R_scope.

(** ** Outcomes of a cell *)

(** The only exception a cell can raise: Python's [/] on a zero divisor, and
    numpy's [arange] on a zero step (which divides by the step). *)
Inductive exn : Set := ZeroDivisionError.

(** A computation either returns a value, together with the points at which
    the integrand has been evaluated so far (in evaluation order), or raises. *)
Inductive outcome (A : Type) : Type :=
| Return (v : A) (evals : list R)
| Raise (e : exn).

Arguments Return {A} v evals.
Arguments Raise {A} e.

Definition ret {A} (v : A) : outcome A := Return v [].

Definition bind {A B} (m : outcome A) (k : A -> outcome B) : outcome B :=
  match m with
  | Raise e => Raise e
  | Return v t =>
      match k v with
      | Raise e => Raise e
      | Return w t' => Return w (t ++ t')
      end
  end.

Notation "x <- m ;; k" := (bind m (fun x => k))
  (at level 61, m at next level, right associativity).

Definition value_of {A} (m : outcome A) : option A :=
  match m with Return v _ => Some v | Raise _ => None end.

Definition evals_of {A} (m : outcome A) : option (list R) :=
  match m with Return _ t => Some t | Raise _ => None end.

(** ** Python and numpy primitives used by the cells *)

(** [x / n] for a number [x] and a Python integer [n]. *)
Definition truediv (x : R) (n : Z) : outcome R :=
  if (n =? 0)%Z then Raise ZeroDivisionError else ret (x / IZR n).

(** [numpy.arange(start, stop, step)]: [ceil((stop - start) / step)] values
    [start + i * step]; an empty array when that length is not positive.  The
    quotient is the exact one here; [Double.arange] has the rounded one. *)
Definition arange (start stop step : R) : outcome (list R) :=
  if Req_dec_T step 0 then Raise ZeroDivisionError
  else ret (map (fun i => start + INR i * step)
                (seq 0 (Z.to_nat (Zceil ((stop - start) / step))))).

(** The builtin [sum]: starts from [0] and adds the items left to right. *)
Definition sum (y : list R) : R := fold_left Rplus y 0.

(** [f(x)] at a number: one evaluation of the integrand. *)
Definition call (f : R -> R) (x : R) : outcome R := Return (f x) [x].

(** [f(x)] at an array: the integrand is evaluated at every item. *)
Definition call_array (f : R -> R) (x : list R) : outcome (list R) :=
  Return (map f x) x.

(** The integrand of all three cells: [f = x**4]. *)
Definition f (x : R) : R := x ^ 4.

(** ** The cells *)

(** Trapezoidal rule (first code cell). *)
Definition integral1 (f : R -> R) (a b : R) (N : Z) : outcome R :=
  h <- truediv (b - a) N ;;
  x <- arange (a + h) b h ;;
  y <- call_array f x ;;
  fa <- call f a ;;
  fb <- call f b ;;
  ret (0.5 * h * (fa + fb) + sum y * h).

(** Simpson's rule (last code cell). *)
Definition integral (f : R -> R) (a b : R) (N : Z) : outcome R :=
  h <- truediv (b - a) N ;;
  x_odd <- arange (a + h) b (2 * h) ;;
  y_odd <- call_array f x_odd ;;
  x_even <- arange (a + 2 * h) b (2 * h) ;;
  y_even <- call_array f x_even ;;
  fa <- call f a ;;
  fb <- call f b ;;
  ret (h * (1 / 3) * (fa + fb + 4 * sum y_odd + 2 * sum y_even)).

(** Euler-McLaurin estimate (second code cell).  The cell has no derivative
    input: it writes the endpoint derivatives of [x**4] on [0,1] as the
    literals [0] and [4], so the code is [error_mc h 0 4]. *)
Definition error_mc (h dfa dfb : R) : R :=
  Rabs ((1 / 12) * (h ^ 2) * (dfa - dfb)).


(** Both rule cells end with [abs(0.2 - integral)], the distance to the true
    integral of [x**4] over [0,1]. *)
Definition error_abs (integral : R) : R := Rabs (0.2 - integral).

(** ** Reference formulas of the specification *)

(** The integers [lo, lo+1, ..., hi] (empty when [hi < lo]). *)
Definition Zrange (lo hi : Z) : list Z :=
  map (fun i => (lo + Z.of_nat i)%Z) (seq 0 (Z.to_nat (hi + 1 - lo))).

(** [Sigma ks F] is the sum of [F k] over the indices [k] in [ks]. *)
Definition Sigma (ks : list Z) (F : Z -> R) : R :=
  fold_right (fun k acc => F k + acc) 0 ks.

(** Every second integer from [lo]: [lo, lo + 2, ...], [n] of them. *)
Definition every_second (lo : Z) (n : nat) : list Z :=
  map (fun i => (lo + 2 * Z.of_nat i)%Z) (seq 0 n).

(** The step [h = (b - a) / N] and the node [a + k h]. *)
Definition step (a b : R) (N : Z) : R := (b - a) / IZR N.

Definition node (a b : R) (N : Z) (k : Z) : R := a + IZR k * step a b N.

(** Section 4.1: [h (f(a)/2 + sum_{k=1}^{N-1} f(a + k h) + f(b)/2)]. *)
Definition trapezoid_formula (f : R -> R) (a b : R) (N : Z) : R :=
  step a b N *
  (/ 2 * f a + Sigma (Zrange 1 (N - 1)) (fun k => f (node a b N k)) + / 2 * f b).

(** Section 4.2: [(h/3) (f(a) + 4 sum_{k odd, 1..N-1} f(a + k h)
    + 2 sum_{k even, 2..N-2} f(a + k h) + f(b))]. *)
Definition simpson_formula (f : R -> R) (a b : R) (N : Z) : R :=
  step a b N / 3 *
  (f a + 4 * Sigma (filter Z.odd (Zrange 1 (N - 1))) (fun k => f (node a b N k))
       + 2 * Sigma (filter Z.even (Zrange 2 (N - 2))) (fun k => f (node a b N k))
       + f b).

(** What Simpson's cell adds up when [N] is not required to be even: the odd
    and the even indices below [N] (for an even [N] the even ones stop at
    [N - 2], as in [simpson_formula]). *)
Definition simpson_sum (f : R -> R) (a b : R) (N : Z) : R :=
  step a b N / 3 *
  (f a + 4 * Sigma (filter Z.odd (Zrange 1 (N - 1))) (fun k => f (node a b N k))
       + 2 * Sigma (filter Z.even (Zrange 2 (N - 1))) (fun k => f (node a b N k))
       + f b).

(** The [N + 1] equally spaced nodes [a + k h], [k = 0..N]. *)
Definition nodes (a b : R) (N : Z) : list R := map (node a b N) (Zrange 0 N).

(** Polynomial integrands of degree at most three. *)
Definition cubic (c0 c1 c2 c3 : R) (x : R) : R :=
  c0 + c1 * x + c2 * x ^ 2 + c3 * x ^ 3.

(** A primitive of [cubic]: its derivative is [cubic] (shown below). *)
Definition cubic_primitive (c0 c1 c2 c3 : R) (x : R) : R :=
  c0 * x + c1 / 2 * x ^ 2 + c2 / 3 * x ^ 3 + c3 / 4 * x ^ 4.

(** ** Round-off against approximation error *)

(** The markdown cell "Round-off error vs approximation error" equates
    [h^2 / 3] with [eps h^(-1/2)] and reports [h = (3 eps)^(2/5)],
    [N_opt = 1 / h] and the estimated minimal error [std = eps / sqrt h]. *)
Definition h_opt (eps : R) : R := Rpower (3 * eps) (2 / 5).

Definition N_opt (eps : R) : R := 1 / h_opt eps.

Definition std (eps h : R) : R := eps / sqrt h.

(** Modelled from the spec: the total error of section 4.4,
    [C h^p + eps h^(-1/2)]; the notebook has no step-size optimizer, it only
    works the case [p = 2], [C = 1/3] by hand in the markdown cell above. *)
Definition total_error (p : nat) (C eps h : R) : R :=
  C * h ^ p + eps * Rpower h (- / 2).

(** Modelled from the spec: the step of section 4.4 at which the two terms of
    [total_error] are equal (the documented heuristic); absent from the
    notebook beyond the worked case [h_opt]. *)
Definition h_star (p : nat) (C eps : R) : R :=
  Rpower (eps / C) (1 / (INR p + / 2)).

(** Modelled from the spec: the optimizer of section 4.4, absent from the
    notebook; it returns the recommended step with the total error predicted
    there. *)
Definition optimize (p : nat) (C eps : R) : R * R :=
  (h_star p C eps, total_error p C eps (h_star p C eps)).

(** Modelled from the spec: the exact minimizer of [total_error] quoted in
    section 4.4, [(eps / (2 p C))^(1 / (p + 1/2))]; absent from the notebook. *)
Definition exact_minimizer (p : nat) (C eps : R) : R :=
  Rpower (eps / (2 * INR p * C)) (1 / (INR p + / 2)).

(** ** The cells in full, with what they print *)

(** First code cell: prints [integral1] and [error_abs]. *)
Definition trapezoid_cell (f : R -> R) (a b : R) (N : Z) : outcome (R * R) :=
  h <- truediv (b - a) N ;;
  x <- arange (a + h) b h ;;
  y <- call_array f x ;;
  fa <- call f a ;;
  fb <- call f b ;;
  let integral1 := 0.5 * h * (fa + fb) + sum y * h in
  ret (integral1, error_abs integral1).

(** Second code cell: the Trapezoidal rule again, then prints [error_mc],
    [error_abs] and the bin size [h]. *)
Definition euler_mclaurin_cell (f : R -> R) (a b : R) (N : Z)
  : outcome (R * R * R) :=
  h <- truediv (b - a) N ;;
  x <- arange (a + h) b h ;;
  y <- call_array f x ;;
  fa <- call f a ;;
  fb <- call f b ;;
  let integral := 0.5 * h * (fa + fb) + sum y * h in
  ret (error_mc h 0 4, error_abs integral, h).

(** Last code cell: prints [integral], [abs_error] and [h]. *)
Definition simpson_cell (f : R -> R) (a b : R) (N : Z) : outcome (R * R * R) :=
  h <- truediv (b - a) N ;;
  x_odd <- arange (a + h) b (2 * h) ;;
  y_odd <- call_array f x_odd ;;
  x_even <- arange (a + 2 * h) b (2 * h) ;;
  y_even <- call_array f x_even ;;
  fa <- call f a ;;
  fb <- call f b ;;
  let integral := h * (1 / 3) * (fa + fb + 4 * sum y_odd + 2 * sum y_even) in
  ret (integral, error_abs integral, h).

(** ** The bins of the markdown derivations *)

(** One trapezoid, [I_k = h (f(x_k) + f(x_{k+1})) / 2]. *)
Definition trapezoid_bin (f : R -> R) (a b : R) (N : Z) (k : Z) : R :=
  / 2 * step a b N * (f (node a b N k) + f (node a b N (k + 1))).

(** One parabola over two bins,
    [I_k = h (f(x_{k-1}) + 4 f(x_k) + f(x_{k+1})) / 3], written from its left
    end [x_{2j}]. *)
Definition simpson_bin (f : R -> R) (a b : R) (N : Z) (j : Z) : R :=
  / 3 * step a b N *
  (f (node a b N (2 * j)) + 4 * f (node a b N (2 * j + 1))
   + f (node a b N (2 * j + 2))).

(** ** Polynomial integrands of degree at most four *)

Definition affine (c0 c1 : R) (x : R) : R := c0 + c1 * x.

Definition quartic (c0 c1 c2 c3 c4 : R) (x : R) : R :=
  c0 + c1 * x + c2 * x ^ 2 + c3 * x ^ 3 + c4 * x ^ 4.

(** First and third derivative and a primitive of [quartic] (shown below). *)
Definition quartic_d1 (c0 c1 c2 c3 c4 : R) (x : R) : R :=
  c1 + 2 * c2 * x + 3 * c3 * x ^ 2 + 4 * c4 * x ^ 3.

Definition quartic_d2 (c0 c1 c2 c3 c4 : R) (x : R) : R :=
  2 * c2 + 6 * c3 * x + 12 * c4 * x ^ 2.

Definition quartic_d3 (c0 c1 c2 c3 c4 : R) (x : R) : R :=
  6 * c3 + 24 * c4 * x.

Definition quartic_primitive (c0 c1 c2 c3 c4 : R) (x : R) : R :=
  c0 * x + c1 / 2 * x ^ 2 + c2 / 3 * x ^ 3 + c3 / 4 * x ^ 4 + c4 / 5 * x ^ 5.

(** ** The cells in double precision *)

(** The cells as Python and numpy run them, on IEEE binary64 numbers (the
    kernel's primitive floats).  The exact-arithmetic cells above idealise
    these: the two differ by rounding and, through the length that [arange]
    computes, sometimes by a whole array item. *)
Module Double.

Import PrimFloat FloatOps SpecFloat.
#[local] Open Scope float_scope.

(** [ZeroDivisionError] comes from Python's [/]; numpy's [arange] raises
    [ValueError] when the length it computes is not a number and
    [OverflowError] when it does not fit an array index. *)
Inductive exn : Set := ZeroDivisionError | ValueError | OverflowError.

(** A run returns a value with the points at which the integrand has been
    evaluated, in evaluation order, or raises. *)
Inductive run (A : Type) : Type :=
| Done (v : A) (evals : list float)
| Fail (e : exn).

Arguments Done {A} v evals.
Arguments Fail {A} e.

Definition ret {A} (v : A) : run A := Done v [].

Definition bind {A B} (m : run A) (k : A -> run B) : run B :=
  match m with
  | Fail e => Fail e
  | Done v t =>
      match k v with
      | Fail e => Fail e
      | Done w t' => Done w (t ++ t')
      end
  end.

#[local] Notation "x <~ m ;; k" := (bind m (fun x => k))
  (at level 61, m at next level, right associativity).

(** A Python integer as a double; exact below [2^53] in absolute value. *)
Definition of_Z (n : Z) : float :=
  match n with
  | Z0 => 0
  | Zpos _ => of_uint63 (Uint63.of_Z n)
  | Zneg _ => - of_uint63 (Uint63.of_Z (- n))
  end.

(** The exact value of a finite double, as a fraction ([0] otherwise). *)
Definition to_Q (x : float) : QArith_base.Q :=
  match Prim2SF x with
  | S754_finite s m e =>
      let z := if s then Zneg m else Zpos m in
      if (0 <=? e)%Z then QArith_base.Qmake (z * 2 ^ e) 1
      else QArith_base.Qmake z (Z.to_pos (2 ^ (- e)))
  | _ => QArith_base.Qmake 0 1
  end.

(** [x / n] for a double [x] and a Python integer [n]. *)
Definition truediv (x : float) (n : Z) : run float :=
  if (n =? 0)%Z then Fail ZeroDivisionError else ret (x / of_Z n).

(** The length numpy gives an [arange]: the ceiling of a double, as an
    integer. *)
Definition ceil (x : float) : run Z :=
  match Prim2SF x with
  | S754_zero _ => ret 0%Z
  | S754_finite s m e =>
      let z := if s then Zneg m else Zpos m in
      let n := (if (0 <=? e)%Z then z * 2 ^ e else - ((- z) / 2 ^ (- e)))%Z in
      if (n <? 2 ^ 63)%Z then ret n else Fail OverflowError
  | S754_infinity _ => Fail OverflowError
  | S754_nan => Fail ValueError
  end.

(** [numpy.arange(start, stop, step)] on doubles: the length is the ceiling of
    the quotient [(stop - start) / step] as computed in doubles; the first two
    items are [start] and [start + step], and item [i >= 2] is
    [start + i * delta] with [delta = (start + step) - start]. *)
Definition arange (start stop step : float) : run (list float) :=
  if step =? 0 then Fail ZeroDivisionError
  else
    len <~ ceil ((stop - start) / step) ;;
    let next := start + step in
    let delta := next - start in
    ret (map (fun i => match i with
                       | O => start
                       | S O => next
                       | _ => start + of_Z (Z.of_nat i) * delta
                       end)
             (seq 0 (Z.to_nat len))).

(** The builtin [sum]: starts from [0] and adds the items left to right. *)
Definition sum (y : list float) : float := fold_left add y 0.

Definition call (f : float -> float) (x : float) : run float := Done (f x) [x].

Definition call_array (f : float -> float) (x : list float) : run (list float) :=
  Done (map f x) x.

(** The integrand [x**4], by two squarings; numpy's [power] may differ from
    it in the last digit. *)
Definition f (x : float) : float := x * x * (x * x).

(** Trapezoidal rule (first code cell). *)
Definition integral1 (f : float -> float) (a b : float) (N : Z) : run float :=
  h <~ truediv (b - a) N ;;
  x <~ arange (a + h) b h ;;
  y <~ call_array f x ;;
  fa <~ call f a ;;
  fb <~ call f b ;;
  ret (0.5 * h * (fa + fb) + sum y * h).

(** Simpson's rule (last code cell). *)
Definition integral (f : float -> float) (a b : float) (N : Z) : run float :=
  h <~ truediv (b - a) N ;;
  x_odd <~ arange (a + h) b (2 * h) ;;
  y_odd <~ call_array f x_odd ;;
  x_even <~ arange (a + 2 * h) b (2 * h) ;;
  y_even <~ call_array f x_even ;;
  fa <~ call f a ;;
  fb <~ call f b ;;
  ret (h * (1 / 3) * (fa + fb + 4 * sum y_odd + 2 * sum y_even)).

End Double.

(** The real number a double stands for. *)
Definition B2R (x : PrimFloat.float) : R := Q2R (Double.to_Q x).

(** * Properties *)

(** ** Sums and index ranges *)

Lemma sum_fold_right (y : list R) : sum y = fold_right Rplus 0 y.
Proof.
  unfold sum. apply fold_symmetric; intros; ring.
Qed.

Lemma sum_map_Sigma (g : R -> R) (x : Z -> R) (ks : list Z) :
  sum (map g (map x ks)) = Sigma ks (fun k => g (x k)).
Proof.
  rewrite sum_fold_right.
  induction ks as [|k ks IH]; simpl; [reflexivity | now rewrite IH].
Qed.

Lemma Sigma_app (ks ks' : list Z) (F : Z -> R) :
  Sigma (ks ++ ks') F = Sigma ks F + Sigma ks' F.
Proof.
  induction ks as [|k ks IH]; simpl; [ring | rewrite IH; ring].
Qed.

Lemma Sigma_linear (ks : list Z) (c : R) (F G : Z -> R) :
  Sigma ks (fun k => c * F k + G k) = c * Sigma ks F + Sigma ks G.
Proof.
  induction ks as [|k ks IH]; simpl; [ring | rewrite IH; ring].
Qed.

Lemma every_second_S lo n :
  every_second lo (S n) = every_second lo n ++ [(lo + 2 * Z.of_nat n)%Z].
Proof.
  unfold every_second. now rewrite seq_S, map_app.
Qed.

Lemma Zrange_nat_S lo n :
  map (fun i => (lo + Z.of_nat i)%Z) (seq 0 (S n)) =
  map (fun i => (lo + Z.of_nat i)%Z) (seq 0 n) ++ [(lo + Z.of_nat n)%Z].
Proof.
  now rewrite seq_S, map_app.
Qed.

(** Filtering a run of consecutive integers by a predicate that holds at
    [lo] and alternates keeps every second one. *)
Lemma filter_alternating (P : Z -> bool) (lo : Z) :
  (forall i : nat, P (lo + 2 * Z.of_nat i)%Z = true) ->
  (forall i : nat, P (lo + 2 * Z.of_nat i + 1)%Z = false) ->
  forall m : nat,
    filter P (map (fun i => (lo + Z.of_nat i)%Z) (seq 0 (2 * m))) =
      every_second lo m /\
    filter P (map (fun i => (lo + Z.of_nat i)%Z) (seq 0 (S (2 * m)))) =
      every_second lo (S m).
Proof.
  intros Hyes Hno m.
  induction m as [|m [IH0 IH1]].
  - split; [reflexivity|].
    simpl. replace (lo + 0)%Z with (lo + 2 * Z.of_nat 0)%Z by lia.
    now rewrite Hyes.
  - assert (E : filter P (map (fun i => (lo + Z.of_nat i)%Z) (seq 0 (2 * S m))) =
                every_second lo (S m)).
    { replace (2 * S m)%nat with (S (S (2 * m))) by lia.
      rewrite Zrange_nat_S, filter_app, IH1. cbn [filter].
      replace (lo + Z.of_nat (S (2 * m)))%Z with (lo + 2 * Z.of_nat m + 1)%Z by lia.
      rewrite Hno. now rewrite app_nil_r. }
    split; [exact E|].
    rewrite Zrange_nat_S, filter_app, E. cbn [filter].
    replace (lo + Z.of_nat (2 * S m))%Z with (lo + 2 * Z.of_nat (S m))%Z by lia.
    rewrite Hyes. now rewrite (every_second_S lo (S m)).
Qed.

Lemma filter_alternating_count (P : Z -> bool) (lo : Z) :
  (forall i : nat, P (lo + 2 * Z.of_nat i)%Z = true) ->
  (forall i : nat, P (lo + 2 * Z.of_nat i + 1)%Z = false) ->
  forall n : nat,
    filter P (map (fun i => (lo + Z.of_nat i)%Z) (seq 0 n)) =
      every_second lo (S n / 2).
Proof.
  intros Hyes Hno n.
  destruct (Nat.Even_or_Odd n) as [[m ->]|[m ->]].
  - destruct (filter_alternating P lo Hyes Hno m) as [H0 _].
    rewrite H0. f_equal.
    assert (S (2 * m) = 1 + m * 2)%nat as -> by lia.
    rewrite Nat.div_add by lia. reflexivity.
  - destruct (filter_alternating P lo Hyes Hno m) as [_ H1].
    replace (2 * m + 1)%nat with (S (2 * m)) by lia.
    rewrite H1. f_equal.
    assert (S (S (2 * m)) = 0 + (S m) * 2)%nat as -> by lia.
    rewrite Nat.div_add by lia. reflexivity.
Qed.

Lemma half_count (n : Z) : (S (Z.to_nat (n - 1)) / 2)%nat = Z.to_nat (n / 2).
Proof.
  destruct (Z.le_gt_cases 1 n).
  - rewrite <- (Nat2Z.id (S _ / 2)). f_equal.
    rewrite Nat2Z.inj_div, Nat2Z.inj_succ, Z2Nat.id by lia.
    f_equal. lia.
  - replace (Z.to_nat (n - 1)) with 0%nat by lia.
    assert (n / 2 <= 0)%Z by (Z.to_euclidean_division_equations; lia).
    replace (Z.to_nat (n / 2)) with 0%nat by lia. reflexivity.
Qed.

Lemma filter_odd_Zrange (hi : Z) :
  filter Z.odd (Zrange 1 hi) = every_second 1 (Z.to_nat ((hi + 1) / 2)).
Proof.
  unfold Zrange. rewrite (filter_alternating_count Z.odd 1).
  - f_equal. apply half_count.
  - intros i. now rewrite Z.odd_add_mul_2.
  - intros i.
    replace (1 + 2 * Z.of_nat i + 1)%Z with (0 + 2 * (Z.of_nat i + 1))%Z by lia.
    now rewrite Z.odd_add_mul_2.
Qed.

Lemma filter_even_Zrange (hi : Z) :
  filter Z.even (Zrange 2 hi) = every_second 2 (Z.to_nat (hi / 2)).
Proof.
  unfold Zrange. rewrite (filter_alternating_count Z.even 2).
  - f_equal. replace (hi + 1 - 2)%Z with (hi - 1)%Z by lia. apply half_count.
  - intros i. now rewrite Z.even_add_mul_2.
  - intros i.
    replace (2 + 2 * Z.of_nat i + 1)%Z with (1 + 2 * (Z.of_nat i + 1))%Z by lia.
    now rewrite Z.even_add_mul_2.
Qed.

(** ** The primitives *)

Lemma truediv_nonzero (x : R) (n : Z) :
  n <> 0%Z -> truediv x n = Return (x / IZR n) [].
Proof.
  intros Hn. unfold truediv.
  destruct (Z.eqb_spec n 0) as [E|_]; [contradiction | reflexivity].
Qed.

Lemma truediv_zero (x : R) : truediv x 0 = Raise ZeroDivisionError.
Proof. reflexivity. Qed.

Lemma arange_zero_step (start stop : R) :
  arange start stop 0 = Raise ZeroDivisionError.
Proof.
  unfold arange. destruct (Req_dec_T 0 0) as [_|H]; [reflexivity | now elim H].
Qed.

Lemma arange_length (start stop step : R) (n : Z) :
  step <> 0 ->
  IZR n - 1 < (stop - start) / step <= IZR n ->
  arange start stop step =
    Return (map (fun i => start + INR i * step) (seq 0 (Z.to_nat n))) [].
Proof.
  intros Hstep Hn. unfold arange.
  destruct (Req_dec_T step 0) as [E|_]; [contradiction|].
  now rewrite (Zceil_eq n).
Qed.

Lemma step_nonzero (a b : R) (N : Z) : N <> 0%Z -> a <> b -> step a b N <> 0.
Proof.
  intros HN Hab. unfold step.
  assert (IZR N <> 0) by now apply not_0_IZR.
  intros E. apply Hab.
  apply (f_equal (fun x => x * IZR N)) in E.
  unfold Rdiv in E. rewrite Rmult_assoc, Rinv_l, Rmult_1_r, Rmult_0_l in E by assumption.
  lra.
Qed.

Lemma node_0 (a b : R) (N : Z) : node a b N 0 = a.
Proof. unfold node. ring. Qed.

Lemma node_N (a b : R) (N : Z) : N <> 0%Z -> node a b N N = b.
Proof.
  intros HN. unfold node, step.
  assert (IZR N <> 0) by now apply not_0_IZR.
  field. assumption.
Qed.

(** The interior points of the Trapezoidal cell: [arange(a+h, b, h)]. *)
Lemma arange_interior (a b : R) (N : Z) :
  N <> 0%Z -> a <> b ->
  arange (a + step a b N) b (step a b N) =
    Return (map (node a b N) (Zrange 1 (N - 1))) [].
Proof.
  intros HN Hab.
  pose proof (step_nonzero a b N HN Hab) as Hh.
  assert (HN' : IZR N <> 0) by now apply not_0_IZR.
  rewrite (arange_length _ _ _ (N - 1)); [|assumption|].
  - f_equal. unfold Zrange. rewrite map_map.
    replace (N - 1 + 1 - 1)%Z with (N - 1)%Z by lia.
    apply map_ext. intros i. unfold node.
    rewrite plus_IZR, <- INR_IZR_INZ. ring.
  - rewrite minus_IZR.
    replace ((b - (a + step a b N)) / step a b N) with (IZR N - 1).
    + lra.
    + unfold step. field. split; [assumption | lra].
Qed.

(** The odd points of Simpson's cell: [arange(a+h, b, 2*h)]. *)
Lemma arange_odd (a b : R) (N : Z) :
  N <> 0%Z -> a <> b ->
  arange (a + step a b N) b (2 * step a b N) =
    Return (map (node a b N) (every_second 1 (Z.to_nat (N / 2)))) [].
Proof.
  intros HN Hab.
  pose proof (step_nonzero a b N HN Hab) as Hh.
  assert (HN' : IZR N <> 0) by now apply not_0_IZR.
  rewrite (arange_length _ _ _ (N / 2)); [|lra|].
  - f_equal. unfold every_second. rewrite map_map.
    apply map_ext. intros i. unfold node.
    rewrite plus_IZR, mult_IZR, <- INR_IZR_INZ. ring.
  - replace ((b - (a + step a b N)) / (2 * step a b N)) with ((IZR N - 1) / 2)
      by (unfold step; field; split; [assumption | lra]).
    pose proof (Z.div_mod N 2 ltac:(lia)) as Hd.
    pose proof (Z.mod_pos_bound N 2 ltac:(lia)) as Hr.
    assert (Hc : (N mod 2 = 0 \/ N mod 2 = 1)%Z) by lia.
    apply (f_equal IZR) in Hd. rewrite plus_IZR, mult_IZR in Hd.
    destruct Hc as [E | E]; rewrite E in Hd; lra.
Qed.

(** The even points of Simpson's cell: [arange(a+2*h, b, 2*h)]. *)
Lemma arange_even (a b : R) (N : Z) :
  N <> 0%Z -> a <> b ->
  arange (a + 2 * step a b N) b (2 * step a b N) =
    Return (map (node a b N) (every_second 2 (Z.to_nat ((N - 1) / 2)))) [].
Proof.
  intros HN Hab.
  pose proof (step_nonzero a b N HN Hab) as Hh.
  assert (HN' : IZR N <> 0) by now apply not_0_IZR.
  rewrite (arange_length _ _ _ ((N - 1) / 2)); [|lra|].
  - f_equal. unfold every_second. rewrite map_map.
    apply map_ext. intros i. unfold node.
    rewrite plus_IZR, mult_IZR, <- INR_IZR_INZ. ring.
  - replace ((b - (a + 2 * step a b N)) / (2 * step a b N))
      with ((IZR (N - 1) - 1) / 2)
      by (rewrite minus_IZR; unfold step; field; split; [assumption | lra]).
    pose proof (Z.div_mod (N - 1) 2 ltac:(lia)) as Hd.
    pose proof (Z.mod_pos_bound (N - 1) 2 ltac:(lia)) as Hr.
    assert (Hc : ((N - 1) mod 2 = 0 \/ (N - 1) mod 2 = 1)%Z) by lia.
    apply (f_equal IZR) in Hd. rewrite plus_IZR, mult_IZR in Hd.
    destruct Hc as [E | E]; rewrite E in Hd; lra.
Qed.

(** ** What the cells compute *)

(** The Trapezoidal cell, whenever it does not raise. *)
Lemma integral1_run (f : R -> R) (a b : R) (N : Z) :
  N <> 0%Z -> a <> b ->
  integral1 f a b N =
    Return (0.5 * step a b N * (f a + f b)
            + sum (map f (map (node a b N) (Zrange 1 (N - 1)))) * step a b N)
           (map (node a b N) (Zrange 1 (N - 1)) ++ [a; b]).
Proof.
  intros HN Hab. unfold integral1.
  rewrite truediv_nonzero by assumption. cbn [bind].
  fold (step a b N). rewrite arange_interior by assumption.
  reflexivity.
Qed.

(** Simpson's cell, whenever it does not raise. *)
Lemma integral_run (f : R -> R) (a b : R) (N : Z) :
  N <> 0%Z -> a <> b ->
  integral f a b N =
    Return (step a b N * (1 / 3) *
            (f a + f b
             + 4 * sum (map f (map (node a b N) (every_second 1 (Z.to_nat (N / 2)))))
             + 2 * sum (map f (map (node a b N)
                                   (every_second 2 (Z.to_nat ((N - 1) / 2)))))))
           (map (node a b N) (every_second 1 (Z.to_nat (N / 2)))
            ++ map (node a b N) (every_second 2 (Z.to_nat ((N - 1) / 2)))
            ++ [a; b]).
Proof.
  intros HN Hab. unfold integral.
  rewrite truediv_nonzero by assumption. cbn [bind].
  fold (step a b N). rewrite arange_odd by assumption. cbn [bind call_array].
  rewrite arange_even by assumption.
  reflexivity.
Qed.

Lemma integral1_value (f : R -> R) (a b : R) (N : Z) :
  N <> 0%Z -> a <> b ->
  value_of (integral1 f a b N) = Some (trapezoid_formula f a b N).
Proof.
  intros HN Hab. rewrite integral1_run by assumption.
  cbn [value_of]. f_equal. rewrite sum_map_Sigma.
  unfold trapezoid_formula. replace 0.5 with (/ 2) by lra. ring.
Qed.

Lemma integral_value (f : R -> R) (a b : R) (N : Z) :
  N <> 0%Z -> a <> b ->
  value_of (integral f a b N) = Some (simpson_sum f a b N).
Proof.
  intros HN Hab. rewrite integral_run by assumption.
  cbn [value_of]. f_equal. rewrite !sum_map_Sigma.
  unfold simpson_sum.
  rewrite filter_odd_Zrange, filter_even_Zrange.
  replace (N - 1 + 1)%Z with N by lia.
  field.
Qed.

Lemma simpson_sum_even (f : R -> R) (a b : R) (N : Z) :
  Z.even N = true -> simpson_sum f a b N = simpson_formula f a b N.
Proof.
  intros HN. unfold simpson_sum, simpson_formula.
  rewrite !filter_even_Zrange.
  replace ((N - 1) / 2)%Z with ((N - 2) / 2)%Z; [reflexivity|].
  apply Z.even_spec in HN. destruct HN as [q ->].
  Z.to_euclidean_division_equations. lia.
Qed.

(** Evaluation of a reference sum at a literal [N]: the index lists are
    computed, the sums unrolled and the nodes put in closed form. *)
Ltac unroll_formula :=
  unfold trapezoid_formula, simpson_formula, simpson_sum;
  repeat match goal with
    | |- context [filter ?P (Zrange ?lo ?hi)] =>
        let l := eval vm_compute in (filter P (Zrange lo hi)) in
        change (filter P (Zrange lo hi)) with l
    | |- context [Zrange ?lo ?hi] =>
        let l := eval vm_compute in (Zrange lo hi) in
        change (Zrange lo hi) with l
    end;
  cbn [Sigma fold_right]; unfold node, step.

(** ** The contracts of the two rules *)

(** X24. In exact arithmetic, for every integrand, every interval with
    [a < b] and every bin count [N >= 1], the Trapezoidal cell returns
    [h (f(a)/2 + sum_{k=1}^{N-1} f(a + k h) + f(b)/2)], [h = (b - a) / N]. *)
Theorem trapezoid_contract (g : R -> R) (a b : R) (N : Z) :
  a < b -> (1 <= N)%Z ->
  value_of (integral1 g a b N) = Some (trapezoid_formula g a b N).
Proof.
  intros Hab HN. apply integral1_value; [lia | lra].
Qed.

Lemma trapezoid_contract_witness :
  value_of (integral1 f 0 1 10) = Some (trapezoid_formula f 0 1 10).
Proof.
  apply (trapezoid_contract f 0 1 10); [lra | lia].
Defined.

(** X25. In exact arithmetic, for every integrand, every interval with
    [a < b] and every even bin count [N >= 2], Simpson's cell returns
    [(h/3) (f(a) + 4 sum_{k odd} f(a + k h) + 2 sum_{k even} f(a + k h) + f(b))],
    the odd [k] in [1..N-1] and the even [k] in [2..N-2]. *)
Theorem simpson_contract (g : R -> R) (a b : R) (N : Z) :
  a < b -> (2 <= N)%Z -> Z.even N = true ->
  value_of (integral g a b N) = Some (simpson_formula g a b N).
Proof.
  intros Hab HN Heven.
  rewrite integral_value by (lia || lra).
  now rewrite simpson_sum_even.
Qed.

Lemma simpson_contract_witness :
  value_of (integral f 0 1 10) = Some (simpson_formula f 0 1 10).
Proof.
  apply (simpson_contract f 0 1 10); [lra | lia | reflexivity].
Defined.

(** ** The notebook's run: [x**4] on [0,1] with ten bins *)

Lemma trapezoid_formula_x4 : trapezoid_formula f 0 1 10 = 20333 / 100000.
Proof. unroll_formula. unfold f. field. Qed.

Lemma simpson_formula_x4 : simpson_formula f 0 1 10 = 60004 / 300000.
Proof. unroll_formula. unfold f. field. Qed.

(** C5. For [f(x) = x^4] on [0,1] with [N = 10] the Trapezoidal cell returns
    exactly [20333/100000] (absolute error [333/100000]) and Simpson's cell
    exactly [60004/300000] (absolute error [4/300000]). *)
Theorem x4_ten_bins :
  value_of (integral1 f 0 1 10) = Some (20333 / 100000) /\
  error_abs (20333 / 100000) = 333 / 100000 /\
  value_of (integral f 0 1 10) = Some (60004 / 300000) /\
  error_abs (60004 / 300000) = 4 / 300000.
Proof.
  repeat split.
  - rewrite integral1_value by (lia || lra). now rewrite trapezoid_formula_x4.
  - unfold error_abs. rewrite Rabs_left; lra.
  - rewrite integral_value by (lia || lra).
    rewrite simpson_sum_even by reflexivity. now rewrite simpson_formula_x4.
  - unfold error_abs. rewrite Rabs_left; lra.
Qed.

(** ** Inputs outside the contract *)

Lemma integral1_raises (g : R -> R) (a b : R) (N : Z) :
  N = 0%Z \/ a = b -> integral1 g a b N = Raise ZeroDivisionError.
Proof.
  intros H. unfold integral1.
  destruct (Z.eq_dec N 0) as [-> | HN]; [reflexivity|].
  destruct H as [H | ->]; [contradiction|].
  rewrite truediv_nonzero by assumption. cbn [bind].
  replace ((b - b) / IZR N) with 0
    by (field; now apply not_0_IZR).
  now rewrite arange_zero_step.
Qed.

Lemma integral_raises (g : R -> R) (a b : R) (N : Z) :
  N = 0%Z \/ a = b -> integral g a b N = Raise ZeroDivisionError.
Proof.
  intros H. unfold integral.
  destruct (Z.eq_dec N 0) as [-> | HN]; [reflexivity|].
  destruct H as [H | ->]; [contradiction|].
  rewrite truediv_nonzero by assumption. cbn [bind].
  replace ((b - b) / IZR N) with 0
    by (field; now apply not_0_IZR).
  rewrite Rmult_0_r. now rewrite arange_zero_step.
Qed.

(** C3, amended.  Simpson's cell checks neither the parity nor the size of
    [N]: in exact arithmetic it returns no number only when [N = 0] (or
    [a = b]), where it fails with [ZeroDivisionError]; for every other input,
    odd and negative [N] included, it returns
    [(h/3) (f(a) + 4 sum_{k odd, 1 <= k < N} f(a + k h)
    + 2 sum_{k even, 2 <= k < N} f(a + k h) + f(b))]. *)
Theorem simpson_unchecked (g : R -> R) (a b : R) (N : Z) :
  (N = 0%Z \/ a = b -> integral g a b N = Raise ZeroDivisionError) /\
  (N <> 0%Z /\ a <> b ->
   value_of (integral g a b N) = Some (simpson_sum g a b N)).
Proof.
  split.
  - apply integral_raises.
  - intros [HN Hab]. now apply integral_value.
Qed.

Lemma simpson_unchecked_witness :
  integral f 0 1 0 = Raise ZeroDivisionError /\
  value_of (integral f 0 1 5) = Some (simpson_sum f 0 1 5).
Proof.
  split.
  - apply (proj1 (simpson_unchecked f 0 1 0)). left. reflexivity.
  - apply (proj2 (simpson_unchecked f 0 1 5)). split; [lia | lra].
Defined.




(** ** The Euler-McLaurin estimate *)


(** ** Evaluation points *)

Lemma Permutation_filter_negb {A : Type} (P : A -> bool) (l : list A) :
  Permutation (filter P l ++ filter (fun x => negb (P x)) l) l.
Proof.
  induction l as [|x l IH]; cbn [filter]; [constructor|].
  destruct (P x); cbn [negb app].
  - now constructor.
  - symmetry. apply Permutation_cons_app. now symmetry.
Qed.

Lemma Zrange_cons (lo hi : Z) :
  (lo <= hi)%Z -> Zrange lo hi = lo :: Zrange (lo + 1) hi.
Proof.
  intros H. unfold Zrange.
  replace (Z.to_nat (hi + 1 - lo)) with (S (Z.to_nat (hi + 1 - (lo + 1)))) by lia.
  cbn [seq map]. f_equal; [lia|].
  rewrite <- seq_shift, map_map. apply map_ext. intros i. lia.
Qed.

Lemma Zrange_snoc (lo hi : Z) :
  (lo <= hi)%Z -> Zrange lo hi = Zrange lo (hi - 1) ++ [hi].
Proof.
  intros H. unfold Zrange.
  replace (Z.to_nat (hi + 1 - lo)) with (S (Z.to_nat (hi - 1 + 1 - lo))) by lia.
  rewrite Zrange_nat_S. f_equal. f_equal. lia.
Qed.

Lemma Zrange_length (lo hi : Z) : length (Zrange lo hi) = Z.to_nat (hi + 1 - lo).
Proof. unfold Zrange. now rewrite length_map, length_seq. Qed.

(** The nodes are the two endpoints around the interior points. *)
Lemma nodes_split (a b : R) (N : Z) :
  (1 <= N)%Z ->
  nodes a b N = a :: map (node a b N) (Zrange 1 (N - 1)) ++ [b].
Proof.
  intros HN. unfold nodes.
  rewrite Zrange_cons by lia. cbn [map]. rewrite node_0. f_equal.
  rewrite (Zrange_snoc (0 + 1) N) by lia.
  rewrite map_app. cbn [map]. rewrite node_N by lia. reflexivity.
Qed.

Lemma trapezoid_evals (g : R -> R) (a b : R) (N : Z) :
  a < b -> (1 <= N)%Z ->
  exists t, evals_of (integral1 g a b N) = Some t /\ Permutation t (nodes a b N).
Proof.
  intros Hab HN. rewrite integral1_run by (lia || lra).
  eexists. split; [reflexivity|].
  rewrite nodes_split by assumption.
  symmetry. apply Permutation_cons_app.
  apply Permutation_app_head. apply perm_swap || reflexivity.
Qed.

Lemma simpson_evals (g : R -> R) (a b : R) (N : Z) :
  a < b -> (2 <= N)%Z -> Z.even N = true ->
  exists t, evals_of (integral g a b N) = Some t /\ Permutation t (nodes a b N).
Proof.
  intros Hab HN Heven. rewrite integral_run by (lia || lra).
  eexists. split; [reflexivity|].
  rewrite nodes_split by lia.
  rewrite app_assoc, <- map_app.
  symmetry. apply Permutation_cons_app.
  apply Permutation_app_tail.
  apply Permutation_map.
  replace (Z.to_nat (N / 2)) with (Z.to_nat ((N - 1 + 1) / 2))
    by (f_equal; f_equal; lia).
  rewrite <- filter_odd_Zrange, <- filter_even_Zrange.
  symmetry.
  assert (E : filter Z.even (Zrange 2 (N - 1)) =
              filter (fun k => negb (Z.odd k)) (Zrange 1 (N - 1))).
  { rewrite (Zrange_cons 1 (N - 1)) by lia. cbn [filter].
    change (negb (Z.odd 1)) with false. cbv iota.
    apply filter_ext. intros k. symmetry. apply Z.negb_odd. }
  rewrite E. apply Permutation_filter_negb.
Qed.

(** X26. In exact arithmetic, for [a < b] and a valid [N], each rule evaluates
    the integrand at the [N + 1] nodes [a + k h], [k = 0..N], both endpoints
    included, once each and nowhere else: the evaluation log is a rearrangement
    of the nodes. *)
Theorem evaluation_points (g : R -> R) (a b : R) (N : Z) :
  a < b ->
  length (nodes a b N) = Z.to_nat (N + 1) /\
  ((1 <= N)%Z ->
   exists t, evals_of (integral1 g a b N) = Some t /\
             Permutation t (nodes a b N) /\ In a t /\ In b t) /\
  ((2 <= N)%Z -> Z.even N = true ->
   exists t, evals_of (integral g a b N) = Some t /\
             Permutation t (nodes a b N) /\ In a t /\ In b t).
Proof.
  intros Hab.
  assert (Hends : forall t, (1 <= N)%Z -> Permutation t (nodes a b N) ->
                            In a t /\ In b t).
  { intros t HN Ht. rewrite nodes_split in Ht by assumption.
    split; apply (Permutation_in _ (Permutation_sym Ht)).
    - now left.
    - right. apply in_or_app. right. now left. }
  split; [|split].
  - unfold nodes. rewrite length_map, Zrange_length. f_equal. lia.
  - intros HN. destruct (trapezoid_evals g a b N Hab HN) as [t [E P]].
    exists t. split; [assumption|]. split; [assumption|]. now apply Hends.
  - intros HN Heven.
    destruct (simpson_evals g a b N Hab HN Heven) as [t [E P]].
    exists t. split; [assumption|]. split; [assumption|]. apply Hends; [lia | assumption].
Qed.

Lemma evaluation_points_witness :
  length (nodes 0 1 10) = 11%nat /\
  (exists t, evals_of (integral1 f 0 1 10) = Some t /\
             Permutation t (nodes 0 1 10) /\ In 0 t /\ In 1 t) /\
  (exists t, evals_of (integral f 0 1 10) = Some t /\
             Permutation t (nodes 0 1 10) /\ In 0 t /\ In 1 t).
Proof.
  assert (H01 : 0 < 1) by lra.
  destruct (evaluation_points f 0 1 10 H01) as [Hlen [Ht Hs]].
  split; [exact Hlen|]. split.
  - apply Ht. lia.
  - apply Hs; [lia | reflexivity].
Defined.

(** ** Linearity in the integrand *)

Lemma trapezoid_formula_linear (g1 g2 : R -> R) (c a b : R) (N : Z) :
  trapezoid_formula (fun x => c * g1 x + g2 x) a b N =
  c * trapezoid_formula g1 a b N + trapezoid_formula g2 a b N.
Proof.
  unfold trapezoid_formula.
  rewrite (Sigma_linear _ c (fun k => g1 (node a b N k)) (fun k => g2 (node a b N k))).
  ring.
Qed.

Lemma simpson_sum_linear (g1 g2 : R -> R) (c a b : R) (N : Z) :
  simpson_sum (fun x => c * g1 x + g2 x) a b N =
  c * simpson_sum g1 a b N + simpson_sum g2 a b N.
Proof.
  unfold simpson_sum.
  rewrite !(Sigma_linear _ c (fun k => g1 (node a b N k)) (fun k => g2 (node a b N k))).
  field.
Qed.

(** C9. In exact arithmetic both rules are linear in the integrand: for
    [a < b] and a valid [N], the rule at [x |-> c g1(x) + g2(x)] is [c] times
    the rule at [g1] plus the rule at [g2]. *)
Theorem rules_linear (g1 g2 : R -> R) (c a b : R) (N : Z) :
  a < b ->
  ((1 <= N)%Z ->
   exists v1 v2 : R,
     value_of (integral1 g1 a b N) = Some v1 /\
     value_of (integral1 g2 a b N) = Some v2 /\
     value_of (integral1 (fun x => c * g1 x + g2 x) a b N) = Some (c * v1 + v2)) /\
  ((2 <= N)%Z -> Z.even N = true ->
   exists v1 v2 : R,
     value_of (integral g1 a b N) = Some v1 /\
     value_of (integral g2 a b N) = Some v2 /\
     value_of (integral (fun x => c * g1 x + g2 x) a b N) = Some (c * v1 + v2)).
Proof.
  intros Hab. split.
  - intros HN.
    exists (trapezoid_formula g1 a b N), (trapezoid_formula g2 a b N).
    rewrite !integral1_value by (lia || lra).
    now rewrite trapezoid_formula_linear.
  - intros HN _.
    exists (simpson_sum g1 a b N), (simpson_sum g2 a b N).
    rewrite !integral_value by (lia || lra).
    now rewrite simpson_sum_linear.
Qed.

Lemma rules_linear_witness :
  (exists v1 v2 : R,
     value_of (integral1 f 0 1 10) = Some v1 /\
     value_of (integral1 (cubic 1 0 0 0) 0 1 10) = Some v2 /\
     value_of (integral1 (fun x => 3 * f x + cubic 1 0 0 0 x) 0 1 10) =
       Some (3 * v1 + v2)) /\
  (exists v1 v2 : R,
     value_of (integral f 0 1 10) = Some v1 /\
     value_of (integral (cubic 1 0 0 0) 0 1 10) = Some v2 /\
     value_of (integral (fun x => 3 * f x + cubic 1 0 0 0 x) 0 1 10) =
       Some (3 * v1 + v2)).
Proof.
  assert (H01 : 0 < 1) by lra.
  destruct (rules_linear f (cubic 1 0 0 0) 3 0 1 10 H01) as [Ht Hs].
  split.
  - apply Ht. lia.
  - apply Hs; [lia | reflexivity].
Defined.

(** ** The step-size optimizer *)

Lemma h_star_pos (p : nat) (C eps : R) : 0 < h_star p C eps.
Proof. unfold h_star, Rpower. apply exp_pos. Qed.

(** At [h_star] the truncation term and the round-off term are equal. *)
Lemma h_star_balances (p : nat) (C eps : R) :
  0 < C -> 0 < eps ->
  C * h_star p C eps ^ p = eps * Rpower (h_star p C eps) (- / 2).
Proof.
  intros HC Heps.
  assert (Hx : 0 < eps / C) by (apply Rdiv_lt_0_compat; assumption).
  assert (Hp : 0 < INR p + / 2) by (pose proof (pos_INR p); lra).
  rewrite <- Rpower_pow by apply h_star_pos.
  unfold h_star. rewrite !Rpower_mult.
  replace (1 / (INR p + / 2) * INR p)
    with (1 + 1 / (INR p + / 2) * - / 2) by (field; lra).
  rewrite Rpower_plus, Rpower_1 by assumption.
  field. lra.
Qed.

(** The predicted total error at [h_star] is twice the markdown's [std]. *)
Lemma total_error_at_h_star (p : nat) (C eps : R) :
  0 < C -> 0 < eps ->
  total_error p C eps (h_star p C eps) = 2 * std eps (h_star p C eps).
Proof.
  intros HC Heps. unfold total_error, std.
  rewrite h_star_balances by assumption.
  rewrite Rpower_Ropp, Rpower_sqrt by apply h_star_pos.
  field. apply Rgt_not_eq, sqrt_lt_R0, h_star_pos.
Qed.

Lemma h_star_trapezoid (eps : R) : h_star 2 (1 / 3) eps = h_opt eps.
Proof.
  unfold h_star, h_opt. f_equal.
  - field.
  - simpl. field.
Qed.

(** C7. For [p] in [{2, 4}], [C > 0] and [eps > 0] the optimizer returns a
    positive [h*] that satisfies [C h*^p = eps h*^(-1/2)] (or is the exact
    minimizer), with the predicted total error at [h*]; for [p = 2],
    [C = 1/3] it is [(3 eps)^(2/5)], as in the notebook. *)
Theorem optimizer_step (p : nat) (C eps : R) :
  p = 2%nat \/ p = 4%nat -> 0 < C -> 0 < eps ->
  0 < fst (optimize p C eps) /\
  (C * fst (optimize p C eps) ^ p = eps * Rpower (fst (optimize p C eps)) (- / 2) \/
   fst (optimize p C eps) = exact_minimizer p C eps) /\
  snd (optimize p C eps) = total_error p C eps (fst (optimize p C eps)) /\
  (p = 2%nat -> C = 1 / 3 -> fst (optimize p C eps) = h_opt eps).
Proof.
  intros Hp HC Heps. cbn [optimize fst snd].
  split; [apply h_star_pos|].
  split; [left; now apply h_star_balances|].
  split; [reflexivity|].
  intros -> ->. apply h_star_trapezoid.
Qed.

Lemma optimizer_step_witness :
  0 < fst (optimize 2 (1 / 3) (/ 1000)) /\
  fst (optimize 2 (1 / 3) (/ 1000)) = Rpower (3 * / 1000) (2 / 5).
Proof.
  destruct (optimizer_step 2 (1 / 3) (/ 1000)) as [Hpos [_ [_ Hh]]].
  - left. reflexivity.
  - lra.
  - lra.
  - split; [exact Hpos | now apply Hh].
Defined.

(** ** Exactness of Simpson's rule on cubics *)

Section Cubic.

Variables c0 c1 c2 c3 : R.

#[local] Notation g := (cubic c0 c1 c2 c3).
#[local] Notation G := (cubic_primitive c0 c1 c2 c3).

Lemma monomial_derivative (c : R) (n : nat) (x : R) :
  derivable_pt_lim (fun y => c * y ^ n) x (c * (INR n * x ^ pred n)).
Proof.
  apply (derivable_pt_lim_scal (fun y => y ^ n) c x), derivable_pt_lim_pow.
Qed.

Lemma cubic_primitive_derivative (x : R) : derivable_pt_lim G x (g x).
Proof.
  unfold cubic.
  replace (c0 + c1 * x + c2 * x ^ 2 + c3 * x ^ 3)
    with (c0 * 1 + c1 / 2 * (INR 2 * x ^ pred 2)
          + c2 / 3 * (INR 3 * x ^ pred 3) + c3 / 4 * (INR 4 * x ^ pred 4))
    by (simpl; field).
  unfold cubic_primitive.
  repeat apply (derivable_pt_lim_plus _ (fun y => _ * y ^ _));
    try apply monomial_derivative.
  apply (derivable_pt_lim_scal id c0 x), derivable_pt_lim_id.
Qed.

Lemma cubic_primitive_derivable : derivable G.
Proof.
  intros x. exists (g x). apply cubic_primitive_derivative.
Qed.

Lemma derive_cubic_primitive (x : R) :
  derive G cubic_primitive_derivable x = g x.
Proof.
  unfold derive. apply derive_pt_eq_0, cubic_primitive_derivative.
Qed.

Lemma cubic_continuity : continuity g.
Proof. unfold cubic. reg. Qed.

Lemma derive_cubic_primitive_continuity :
  continuity (derive G cubic_primitive_derivable).
Proof.
  intros x.
  apply (continuity_pt_locally_ext g _ 1); [lra | |apply cubic_continuity].
  intros y _. symmetry. apply derive_cubic_primitive.
Qed.

(** The integral of a cubic is the increment of its primitive. *)
Lemma cubic_RiemannInt (a b : R) (pr : Riemann_integrable g a b) :
  a <= b -> RiemannInt pr = G b - G a.
Proof.
  intros Hab.
  set (F := mkC1 derive_cubic_primitive_continuity).
  assert (pr' : Riemann_integrable (derive F (diff0 F)) a b).
  { apply continuity_implies_RiemannInt; [assumption|].
    intros x _. apply (cont1 F). }
  transitivity (RiemannInt pr').
  - apply RiemannInt_P18; [assumption|].
    intros x _. symmetry. apply derive_cubic_primitive.
  - apply (FTC_Riemann F pr').
Qed.

(** One parabola over two bins integrates a cubic exactly. *)
Lemma simpson_panel (x h : R) :
  h / 3 * (g x + 4 * g (x + h) + g (x + 2 * h)) = G (x + 2 * h) - G x.
Proof.
  unfold cubic, cubic_primitive. field.
Qed.

(** The weighted sum over [m + 1] pairs of bins telescopes. *)
Lemma simpson_panels (a h : R) (m : nat) :
  h / 3 *
  (g a + 4 * Sigma (every_second 1 (S m)) (fun k => g (a + IZR k * h))
       + 2 * Sigma (every_second 2 m) (fun k => g (a + IZR k * h))
       + g (a + 2 * INR (S m) * h)) =
  G (a + 2 * INR (S m) * h) - G a.
Proof.
  induction m as [|m IH].
  - cbn [every_second seq map Sigma fold_right Z.of_nat Z.mul Z.add INR].
    replace (a + 1 * h) with (a + h) by ring.
    replace (a + 2 * 1 * h) with (a + 2 * h) by ring.
    rewrite <- (simpson_panel a h).
    ring.
  - rewrite (every_second_S 1 (S m)), (every_second_S 2 m), !Sigma_app.
    cbn [Sigma fold_right].
    rewrite !plus_IZR, !mult_IZR, <- !INR_IZR_INZ.
    set (x := a + 2 * INR (S m) * h) in *.
    replace (a + (1 + 2 * INR (S m)) * h) with (x + h) by (unfold x; ring).
    replace (a + (2 + 2 * INR m) * h) with x by (unfold x; rewrite S_INR; ring).
    replace (a + 2 * INR (S (S m)) * h) with (x + 2 * h)
      by (unfold x; rewrite (S_INR (S m)); ring).
    replace (G (x + 2 * h) - G a) with ((G x - G a) + (G (x + 2 * h) - G x)) by ring.
    rewrite <- IH, <- simpson_panel. ring.
Qed.

Lemma simpson_formula_cubic (a b : R) (N : Z) :
  (2 <= N)%Z -> Z.even N = true ->
  simpson_formula g a b N = G b - G a.
Proof.
  intros HN Heven.
  apply Z.even_spec in Heven. destruct Heven as [q ->].
  assert (Hq : (1 <= q)%Z) by lia.
  unfold simpson_formula.
  rewrite filter_odd_Zrange, filter_even_Zrange.
  replace ((2 * q - 1 + 1) / 2)%Z with q
    by (Z.to_euclidean_division_equations; lia).
  replace ((2 * q - 2) / 2)%Z with (q - 1)%Z
    by (Z.to_euclidean_division_equations; lia).
  replace (Z.to_nat q) with (S (Z.to_nat (q - 1))) by lia.
  set (m := Z.to_nat (q - 1)).
  assert (Hb : b = a + 2 * INR (S m) * step a b (2 * q)).
  { rewrite <- (node_N a b (2 * q)) at 1 by lia.
    unfold node. f_equal. f_equal.
    rewrite mult_IZR. f_equal.
    rewrite INR_IZR_INZ. f_equal. lia. }
  rewrite Hb at 2 3.
  rewrite <- (simpson_panels a (step a b (2 * q)) m).
  unfold node. ring.
Qed.

End Cubic.

(** A cubic is integrable over every interval. *)
Lemma cubic_integrable (c0 c1 c2 c3 a b : R) :
  Riemann_integrable (cubic c0 c1 c2 c3) a b.
Proof.
  destruct (Rle_dec a b) as [Hab|Hba].
  - apply continuity_implies_RiemannInt; [assumption|].
    intros x _. apply cubic_continuity.
  - apply RiemannInt_P1, continuity_implies_RiemannInt; [lra|].
    intros x _. apply cubic_continuity.
Qed.

(** C10. In exact arithmetic Simpson's cell is exact on every polynomial of
    degree at most three: for [a < b] and every even [N >= 2] it returns the
    integral of the polynomial over [a, b]. *)
Theorem simpson_exact_on_cubics (c0 c1 c2 c3 a b : R) (N : Z)
    (pr : Riemann_integrable (cubic c0 c1 c2 c3) a b) :
  a < b -> (2 <= N)%Z -> Z.even N = true ->
  value_of (integral (cubic c0 c1 c2 c3) a b N) = Some (RiemannInt pr).
Proof.
  intros Hab HN Heven.
  rewrite integral_value by (lia || lra).
  rewrite simpson_sum_even by assumption.
  rewrite simpson_formula_cubic by assumption.
  now rewrite cubic_RiemannInt by lra.
Qed.

Lemma simpson_exact_on_cubics_witness :
  value_of (integral (cubic 1 2 3 4) 0 1 2) =
    Some (RiemannInt (cubic_integrable 1 2 3 4 0 1)).
Proof.
  apply (simpson_exact_on_cubics 1 2 3 4 0 1 2); [lra | lia | reflexivity].
Defined.

(** * Further properties of the cells *)
(** ** More on sums and index ranges *)

Lemma Sigma_ext (ks : list Z) (F G : Z -> R) :
  (forall k, In k ks -> F k = G k) -> Sigma ks F = Sigma ks G.
Proof.
  induction ks as [|k ks IH]; cbn [Sigma fold_right]; intros H; [reflexivity|].
  rewrite (H k) by now left.
  fold (Sigma ks F). fold (Sigma ks G). rewrite IH; [reflexivity|].
  intros j Hj. apply H. now right.
Qed.

Lemma Sigma_map (g : Z -> Z) (ks : list Z) (F : Z -> R) :
  Sigma (map g ks) F = Sigma ks (fun k => F (g k)).
Proof.
  induction ks as [|k ks IH]; cbn [map Sigma fold_right]; [reflexivity|].
  fold (Sigma (map g ks) F). now rewrite IH.
Qed.

Lemma Sigma_scal (ks : list Z) (c : R) (F : Z -> R) :
  Sigma ks (fun k => c * F k) = c * Sigma ks F.
Proof.
  induction ks as [|k ks IH]; cbn [Sigma fold_right]; [ring|].
  fold (Sigma ks (fun k => c * F k)). fold (Sigma ks F). rewrite IH. ring.
Qed.

Lemma Sigma_plus (ks : list Z) (F G : Z -> R) :
  Sigma ks (fun k => F k + G k) = Sigma ks F + Sigma ks G.
Proof.
  induction ks as [|k ks IH]; cbn [Sigma fold_right]; [ring|].
  fold (Sigma ks (fun k => F k + G k)). fold (Sigma ks F). fold (Sigma ks G).
  rewrite IH. ring.
Qed.

Lemma Sigma_const (ks : list Z) (c : R) :
  Sigma ks (fun _ => c) = INR (length ks) * c.
Proof.
  induction ks as [|k ks IH]; [cbn; ring|].
  cbn [Sigma fold_right]. fold (Sigma ks (fun _ => c)).
  rewrite IH. cbn [length]. rewrite S_INR. ring.
Qed.

Lemma Sigma_le (ks : list Z) (F G : Z -> R) :
  (forall k, In k ks -> F k <= G k) -> Sigma ks F <= Sigma ks G.
Proof.
  induction ks as [|k ks IH]; cbn [Sigma fold_right]; intros H; [lra|].
  fold (Sigma ks F). fold (Sigma ks G).
  apply Rplus_le_compat; [apply H; now left | apply IH].
  intros j Hj. apply H. now right.
Qed.

Lemma Sigma_filter_split (P : Z -> bool) (ks : list Z) (F : Z -> R) :
  Sigma ks F = Sigma (filter P ks) F + Sigma (filter (fun k => negb (P k)) ks) F.
Proof.
  induction ks as [|k ks IH]; unfold Sigma in *; cbn [filter fold_right]; [ring|].
  rewrite IH. destruct (P k); cbn [negb fold_right]; ring.
Qed.

Lemma Sigma_rev (ks : list Z) (F : Z -> R) : Sigma (rev ks) F = Sigma ks F.
Proof.
  induction ks as [|k ks IH]; [reflexivity|].
  cbn [rev]. rewrite Sigma_app, IH. unfold Sigma. cbn [fold_right]. ring.
Qed.

Lemma Zrange_In (lo hi k : Z) : In k (Zrange lo hi) <-> (lo <= k <= hi)%Z.
Proof.
  unfold Zrange. rewrite in_map_iff. split.
  - intros [i [<- Hi]]. apply in_seq in Hi. lia.
  - intros H. exists (Z.to_nat (k - lo)). split; [lia|].
    apply in_seq. lia.
Qed.

Lemma Zrange_empty (lo hi : Z) : (hi < lo)%Z -> Zrange lo hi = [].
Proof.
  intros H. unfold Zrange. now replace (Z.to_nat (hi + 1 - lo)) with 0%nat by lia.
Qed.

Lemma Zrange_shift (lo hi d : Z) :
  Zrange (lo + d) (hi + d) = map (fun k => (k + d)%Z) (Zrange lo hi).
Proof.
  unfold Zrange. rewrite map_map.
  replace (hi + d + 1 - (lo + d))%Z with (hi + 1 - lo)%Z by lia.
  apply map_ext. intros i. lia.
Qed.

Lemma seq_from (lo n : nat) : seq lo n = map (fun i => (lo + i)%nat) (seq 0 n).
Proof.
  revert lo. induction n as [|n IH]; intros lo; [reflexivity|].
  cbn [seq map]. f_equal; [lia|].
  rewrite (IH (S lo)), (IH 1%nat), map_map. apply map_ext. intros i. lia.
Qed.

Lemma Zrange_app (lo mid hi : Z) :
  (lo <= mid + 1)%Z -> (mid <= hi)%Z ->
  Zrange lo hi = Zrange lo mid ++ Zrange (mid + 1) hi.
Proof.
  intros H1 H2. unfold Zrange.
  replace (Z.to_nat (hi + 1 - lo))
    with (Z.to_nat (mid + 1 - lo) + Z.to_nat (hi + 1 - (mid + 1)))%nat by lia.
  rewrite seq_app, map_app. f_equal.
  cbn [Nat.add]. rewrite seq_from, map_map.
  apply map_ext. intros i. lia.
Qed.

(** A sum of successive differences collapses to the end values. *)
Lemma Sigma_telescope (P : Z -> R) (n : Z) :
  (0 <= n)%Z ->
  Sigma (Zrange 0 (n - 1)) (fun k => P (k + 1)%Z - P k) = P n - P 0%Z.
Proof.
  intros Hn. rewrite <- (Z2Nat.id n Hn).
  induction (Z.to_nat n) as [|m IH].
  - cbn. ring.
  - rewrite Zrange_snoc by lia. rewrite Sigma_app.
    replace (Z.of_nat (S m) - 1 - 1)%Z with (Z.of_nat m - 1)%Z by lia.
    rewrite IH. unfold Sigma. cbn [fold_right].
    replace (Z.of_nat (S m) - 1 + 1)%Z with (Z.of_nat (S m)) by lia.
    replace (Z.of_nat (S m) - 1)%Z with (Z.of_nat m) by lia.
    ring.
Qed.

Lemma Zrange_rev_nat (lo : Z) (n : nat) :
  rev (Zrange lo (lo + Z.of_nat n)) =
  map (fun k => (lo + (lo + Z.of_nat n) - k)%Z) (Zrange lo (lo + Z.of_nat n)).
Proof.
  induction n as [|n IH].
  - replace (lo + Z.of_nat 0)%Z with lo by lia.
    rewrite Zrange_cons, Zrange_empty by lia. cbn. f_equal. lia.
  - rewrite (Zrange_snoc lo (lo + Z.of_nat (S n))) at 1 by lia.
    replace (lo + Z.of_nat (S n) - 1)%Z with (lo + Z.of_nat n)%Z by lia.
    rewrite rev_app_distr. cbn [rev app].
    rewrite (Zrange_cons lo (lo + Z.of_nat (S n))) by lia.
    cbn [map]. f_equal; [lia|].
    rewrite IH.
    replace (lo + Z.of_nat (S n))%Z with (lo + Z.of_nat n + 1)%Z by lia.
    rewrite Zrange_shift, map_map. apply map_ext. intros k. lia.
Qed.

Lemma Zrange_rev (lo hi : Z) :
  rev (Zrange lo hi) = map (fun k => (lo + hi - k)%Z) (Zrange lo hi).
Proof.
  destruct (Z.lt_ge_cases hi lo) as [H|H].
  - now rewrite Zrange_empty.
  - pose proof (Zrange_rev_nat lo (Z.to_nat (hi - lo))) as E.
    now replace (lo + Z.of_nat (Z.to_nat (hi - lo)))%Z with hi in E by lia.
Qed.

(** Summing over [lo..hi] downwards gives the same sum. *)
Lemma Sigma_reflect (lo hi : Z) (F : Z -> R) :
  Sigma (Zrange lo hi) (fun k => F (lo + hi - k)%Z) = Sigma (Zrange lo hi) F.
Proof.
  rewrite <- (Sigma_map (fun k => (lo + hi - k)%Z)), <- Zrange_rev.
  apply Sigma_rev.
Qed.

(** ** The cells in full *)

Lemma trapezoid_value_eq (g : R -> R) (a b : R) (N : Z) :
  0.5 * step a b N * (g a + g b)
  + sum (map g (map (node a b N) (Zrange 1 (N - 1)))) * step a b N =
  trapezoid_formula g a b N.
Proof.
  rewrite sum_map_Sigma. unfold trapezoid_formula.
  replace 0.5 with (/ 2) by lra. ring.
Qed.

Lemma simpson_value_eq (g : R -> R) (a b : R) (N : Z) :
  step a b N * (1 / 3) *
  (g a + g b
   + 4 * sum (map g (map (node a b N) (every_second 1 (Z.to_nat (N / 2)))))
   + 2 * sum (map g (map (node a b N) (every_second 2 (Z.to_nat ((N - 1) / 2)))))) =
  simpson_sum g a b N.
Proof.
  rewrite !sum_map_Sigma. unfold simpson_sum.
  rewrite filter_odd_Zrange, filter_even_Zrange.
  replace (N - 1 + 1)%Z with N by lia. field.
Qed.

Lemma trapezoid_cell_value (g : R -> R) (a b : R) (N : Z) :
  N <> 0%Z -> a <> b ->
  value_of (trapezoid_cell g a b N) =
    Some (trapezoid_formula g a b N, error_abs (trapezoid_formula g a b N)).
Proof.
  intros HN Hab. unfold trapezoid_cell.
  rewrite truediv_nonzero by assumption. cbn [bind].
  fold (step a b N). rewrite arange_interior by assumption.
  unfold ret, call, call_array. cbn [bind value_of].
  now rewrite trapezoid_value_eq.
Qed.

Lemma euler_mclaurin_cell_value (g : R -> R) (a b : R) (N : Z) :
  N <> 0%Z -> a <> b ->
  value_of (euler_mclaurin_cell g a b N) =
    Some (error_mc (step a b N) 0 4, error_abs (trapezoid_formula g a b N),
          step a b N).
Proof.
  intros HN Hab. unfold euler_mclaurin_cell.
  rewrite truediv_nonzero by assumption. cbn [bind].
  fold (step a b N). rewrite arange_interior by assumption.
  unfold ret, call, call_array. cbn [bind value_of].
  now rewrite trapezoid_value_eq.
Qed.

Lemma simpson_cell_value (g : R -> R) (a b : R) (N : Z) :
  N <> 0%Z -> a <> b ->
  value_of (simpson_cell g a b N) =
    Some (simpson_sum g a b N, error_abs (simpson_sum g a b N), step a b N).
Proof.
  intros HN Hab. unfold simpson_cell.
  rewrite truediv_nonzero by assumption. cbn [bind].
  fold (step a b N). rewrite arange_odd by assumption.
  unfold call_array at 1. cbn [bind].
  rewrite arange_even by assumption.
  unfold ret, call, call_array. cbn [bind value_of].
  now rewrite simpson_value_eq.
Qed.

(** ** The rules as sums over bins *)

Lemma node_succ (a b : R) (N k : Z) :
  node a b N (k + 1) = node a b N k + step a b N.
Proof. unfold node. rewrite plus_IZR. ring. Qed.

Lemma Sigma_one (k : Z) (F : Z -> R) : Sigma [k] F = F k.
Proof. unfold Sigma. cbn [fold_right]. ring. Qed.

Lemma bins_collapse (F : Z -> R) (n : nat) :
  Sigma (Zrange 0 (Z.of_nat n)) (fun k => F k + F (k + 1)%Z) =
  F 0%Z + 2 * Sigma (Zrange 1 (Z.of_nat n)) F + F (Z.of_nat n + 1)%Z.
Proof.
  induction n as [|n IH].
  - change (Zrange 0 (Z.of_nat 0)) with [0%Z].
    change (Zrange 1 (Z.of_nat 0)) with (@nil Z).
    unfold Sigma. cbn [fold_right]. cbn [Z.of_nat Z.add]. ring.
  - rewrite (Zrange_snoc 0), (Zrange_snoc 1) by lia.
    rewrite !Sigma_app.
    replace (Z.of_nat (S n) - 1)%Z with (Z.of_nat n) by lia.
    rewrite IH, !Sigma_one.
    replace (Z.of_nat n + 1)%Z with (Z.of_nat (S n)) by lia.
    ring.
Qed.

Lemma trapezoid_formula_bins (g : R -> R) (a b : R) (N : Z) :
  (1 <= N)%Z ->
  trapezoid_formula g a b N = Sigma (Zrange 0 (N - 1)) (trapezoid_bin g a b N).
Proof.
  intros HN. unfold trapezoid_bin.
  rewrite (Sigma_scal _ (/ 2 * step a b N)
             (fun k => g (node a b N k) + g (node a b N (k + 1)))).
  replace (N - 1)%Z with (Z.of_nat (Z.to_nat (N - 1))) by lia.
  rewrite (bins_collapse (fun k => g (node a b N k))).
  rewrite Z2Nat.id by lia.
  replace (N - 1 + 1)%Z with N by lia.
  rewrite node_0, node_N by lia.
  unfold trapezoid_formula. field.
Qed.

Lemma double_bins_collapse (F : Z -> R) (m : nat) :
  Sigma (Zrange 0 (Z.of_nat m))
        (fun j => F (2 * j)%Z + 4 * F (2 * j + 1)%Z + F (2 * j + 2)%Z) =
  F 0%Z + 4 * Sigma (every_second 1 (S m)) F + 2 * Sigma (every_second 2 m) F
  + F (2 * Z.of_nat m + 2)%Z.
Proof.
  induction m as [|m IH].
  - change (Zrange 0 (Z.of_nat 0)) with [0%Z].
    change (every_second 1 1) with [1%Z].
    change (every_second 2 0) with (@nil Z).
    unfold Sigma. cbn [fold_right]. cbn [Z.of_nat Z.add Z.mul Pos.add Pos.mul]. ring.
  - rewrite (Zrange_snoc 0) by lia.
    rewrite (every_second_S 1 (S m)), (every_second_S 2 m), !Sigma_app.
    replace (Z.of_nat (S m) - 1)%Z with (Z.of_nat m) by lia.
    rewrite IH, !Sigma_one.
    replace (2 * Z.of_nat (S m))%Z with (2 * Z.of_nat m + 2)%Z by lia.
    replace (1 + (2 * Z.of_nat m + 2))%Z with (2 * Z.of_nat m + 2 + 1)%Z by lia.
    replace (2 + 2 * Z.of_nat m)%Z with (2 * Z.of_nat m + 2)%Z by lia.
    ring.
Qed.

Lemma simpson_formula_bins (g : R -> R) (a b : R) (N : Z) :
  (2 <= N)%Z -> Z.even N = true ->
  simpson_formula g a b N = Sigma (Zrange 0 (N / 2 - 1)) (simpson_bin g a b N).
Proof.
  intros HN Heven.
  apply Z.even_spec in Heven. destruct Heven as [q Hq].
  assert (Hq2 : (N / 2 = q)%Z) by (subst N; Z.to_euclidean_division_equations; lia).
  rewrite Hq2. unfold simpson_bin.
  rewrite (Sigma_scal _ (/ 3 * step a b N)
             (fun j => g (node a b N (2 * j)) + 4 * g (node a b N (2 * j + 1))
                       + g (node a b N (2 * j + 2)))).
  replace (q - 1)%Z with (Z.of_nat (Z.to_nat (q - 1))) by lia.
  rewrite (double_bins_collapse (fun k => g (node a b N k))).
  rewrite Z2Nat.id by lia.
  replace (2 * (q - 1) + 2)%Z with N by lia.
  rewrite node_0, node_N by lia.
  unfold simpson_formula.
  rewrite filter_odd_Zrange, filter_even_Zrange.
  replace ((N - 1 + 1) / 2)%Z with q by (subst N; Z.to_euclidean_division_equations; lia).
  replace ((N - 2) / 2)%Z with (q - 1)%Z by (subst N; Z.to_euclidean_division_equations; lia).
  replace (S (Z.to_nat (q - 1))) with (Z.to_nat q) by lia.
  field.
Qed.

(** X1. The Trapezoidal cell adds up the [N] trapezoids of the derivation. *)
Theorem trapezoid_sum_of_bins (g : R -> R) (a b : R) (N : Z) :
  a < b -> (1 <= N)%Z ->
  value_of (integral1 g a b N) =
    Some (Sigma (Zrange 0 (N - 1)) (trapezoid_bin g a b N)).
Proof.
  intros Hab HN. rewrite integral1_value by (lia || lra).
  now rewrite trapezoid_formula_bins.
Qed.

Lemma trapezoid_sum_of_bins_witness :
  value_of (integral1 f 0 1 10) = Some (Sigma (Zrange 0 (10 - 1)) (trapezoid_bin f 0 1 10)).
Proof.
  apply (trapezoid_sum_of_bins f 0 1 10); [lra | lia].
Defined.

(** X2. Simpson's cell adds up the [N / 2] parabolas of the derivation. *)
Theorem simpson_sum_of_bins (g : R -> R) (a b : R) (N : Z) :
  a < b -> (2 <= N)%Z -> Z.even N = true ->
  value_of (integral g a b N) =
    Some (Sigma (Zrange 0 (N / 2 - 1)) (simpson_bin g a b N)).
Proof.
  intros Hab HN Heven. rewrite integral_value by (lia || lra).
  rewrite simpson_sum_even by assumption.
  now rewrite simpson_formula_bins.
Qed.

Lemma simpson_sum_of_bins_witness :
  value_of (integral f 0 1 10) =
    Some (Sigma (Zrange 0 (10 / 2 - 1)) (simpson_bin f 0 1 10)).
Proof.
  apply (simpson_sum_of_bins f 0 1 10); [lra | lia | reflexivity].
Defined.

(** ** Simpson's rule from two Trapezoidal runs *)

Lemma filter_even_from_1 (hi : Z) :
  filter Z.even (Zrange 2 hi) = filter (fun k => negb (Z.odd k)) (Zrange 1 hi).
Proof.
  destruct (Z.lt_ge_cases hi 1) as [H|H].
  - now rewrite !Zrange_empty by lia.
  - rewrite (Zrange_cons 1 hi) by lia. cbn [filter].
    change (negb (Z.odd 1)) with false. cbv iota.
    apply filter_ext. intros k. symmetry. apply Z.negb_odd.
Qed.

Lemma every_second_2_Zrange (hi : Z) :
  every_second 2 (Z.to_nat hi) = map (fun j => (2 * j)%Z) (Zrange 1 hi).
Proof.
  unfold every_second, Zrange. rewrite map_map.
  replace (hi + 1 - 1)%Z with hi by lia.
  apply map_ext. intros i. lia.
Qed.

Lemma step_double (a b : R) (m : Z) :
  m <> 0%Z -> step a b m = 2 * step a b (2 * m).
Proof.
  intros Hm. unfold step. rewrite mult_IZR.
  field. now apply not_0_IZR.
Qed.

Lemma node_double (a b : R) (m j : Z) :
  m <> 0%Z -> node a b (2 * m) (2 * j) = node a b m j.
Proof.
  intros Hm. unfold node. rewrite (step_double a b m Hm), mult_IZR. ring.
Qed.

Lemma simpson_sum_richardson (g : R -> R) (a b : R) (m : Z) :
  m <> 0%Z ->
  simpson_sum g a b (2 * m) =
  (4 * trapezoid_formula g a b (2 * m) - trapezoid_formula g a b m) / 3.
Proof.
  intros Hm. unfold simpson_sum, trapezoid_formula.
  rewrite (Sigma_filter_split Z.odd (Zrange 1 (2 * m - 1))).
  rewrite <- filter_even_from_1.
  assert (E : Sigma (Zrange 1 (m - 1)) (fun k => g (node a b m k)) =
              Sigma (filter Z.even (Zrange 2 (2 * m - 1)))
                    (fun k => g (node a b (2 * m) k))).
  { rewrite filter_even_Zrange.
    replace ((2 * m - 1) / 2)%Z with (m - 1)%Z
      by (Z.to_euclidean_division_equations; lia).
    rewrite every_second_2_Zrange, Sigma_map.
    apply Sigma_ext. intros j _. now rewrite node_double. }
  rewrite E, (step_double a b m Hm). field.
Qed.

(** X3. In exact arithmetic. Whenever the Trapezoidal cell returns [T1] with [m]
    bins and [T2] with [2 m] bins, Simpson's cell with [2 m] bins returns [(4 T2
    - T1) / 3]. *)
Theorem simpson_from_trapezoids (g : R -> R) (a b : R) (m : Z) (T1 T2 : R) :
  value_of (integral1 g a b m) = Some T1 ->
  value_of (integral1 g a b (2 * m)) = Some T2 ->
  value_of (integral g a b (2 * m)) = Some ((4 * T2 - T1) / 3).
Proof.
  intros H1 H2.
  destruct (Z.eq_dec m 0) as [Hm | Hm].
  { rewrite integral1_raises in H1 by (now left). discriminate H1. }
  destruct (Req_dec a b) as [Hab | Hab].
  { rewrite integral1_raises in H1 by (now right). discriminate H1. }
  rewrite integral1_value in H1, H2 by (assumption || lia).
  injection H1 as <-. injection H2 as <-.
  rewrite integral_value by (assumption || lia).
  now rewrite simpson_sum_richardson.
Qed.

Lemma simpson_from_trapezoids_witness :
  value_of (integral f 0 1 (2 * 5)) =
    Some ((4 * trapezoid_formula f 0 1 (2 * 5) - trapezoid_formula f 0 1 5) / 3).
Proof.
  apply (simpson_from_trapezoids f 0 1 5);
    apply integral1_value; (lia || lra).
Defined.

(** ** Polynomials of degree at most four: derivatives and integral *)

Lemma RiemannInt_primitive (g G : R -> R) (a b : R)
    (pr : Riemann_integrable g a b) :
  (forall x, derivable_pt_lim G x (g x)) -> continuity g -> a <= b ->
  RiemannInt pr = G b - G a.
Proof.
  intros HG Hg Hab.
  assert (dG : derivable G) by (intros x; exists (g x); apply HG).
  assert (E : forall x, derive G dG x = g x)
    by (intros x; unfold derive; apply derive_pt_eq_0, HG).
  assert (cG : continuity (derive G dG)).
  { intros x. apply (continuity_pt_locally_ext g _ 1); [lra | | apply Hg].
    intros y _. symmetry. apply E. }
  set (F := mkC1 cG).
  assert (pr' : Riemann_integrable (derive F (diff0 F)) a b).
  { apply continuity_implies_RiemannInt; [assumption|].
    intros x _. apply (cont1 F). }
  transitivity (RiemannInt pr').
  - apply RiemannInt_P18; [assumption|].
    intros x _. symmetry. apply E.
  - apply (FTC_Riemann F pr').
Qed.

Section Quartic.

Variables c0 c1 c2 c3 c4 : R.

#[local] Notation q := (quartic c0 c1 c2 c3 c4).
#[local] Notation q1 := (quartic_d1 c0 c1 c2 c3 c4).
#[local] Notation q2 := (quartic_d2 c0 c1 c2 c3 c4).
#[local] Notation q3 := (quartic_d3 c0 c1 c2 c3 c4).
#[local] Notation Q := (quartic_primitive c0 c1 c2 c3 c4).

(** A polynomial written as a sum of monomials [c * y ^ n] has the expected
    derivative. *)
Ltac monomials :=
  repeat apply (derivable_pt_lim_plus _ (fun y => _ * y ^ _));
  apply monomial_derivative.

Lemma quartic_primitive_derivative (x : R) : derivable_pt_lim Q x (q x).
Proof.
  apply (derivable_pt_lim_ext
           (fun y => c0 * y ^ 1 + c1 / 2 * y ^ 2 + c2 / 3 * y ^ 3
                     + c3 / 4 * y ^ 4 + c4 / 5 * y ^ 5)).
  - intros y. unfold quartic_primitive. ring.
  - replace (q x)
      with (c0 * (INR 1 * x ^ pred 1) + c1 / 2 * (INR 2 * x ^ pred 2)
            + c2 / 3 * (INR 3 * x ^ pred 3) + c3 / 4 * (INR 4 * x ^ pred 4)
            + c4 / 5 * (INR 5 * x ^ pred 5))
      by (unfold quartic; simpl; field).
    monomials.
Qed.

Lemma quartic_derivative (x : R) : derivable_pt_lim q x (q1 x).
Proof.
  apply (derivable_pt_lim_ext
           (fun y => c0 * y ^ 0 + c1 * y ^ 1 + c2 * y ^ 2 + c3 * y ^ 3 + c4 * y ^ 4)).
  - intros y. unfold quartic. ring.
  - replace (q1 x)
      with (c0 * (INR 0 * x ^ pred 0) + c1 * (INR 1 * x ^ pred 1)
            + c2 * (INR 2 * x ^ pred 2) + c3 * (INR 3 * x ^ pred 3)
            + c4 * (INR 4 * x ^ pred 4))
      by (unfold quartic_d1; simpl; ring).
    monomials.
Qed.

Lemma quartic_d1_derivative (x : R) : derivable_pt_lim q1 x (q2 x).
Proof.
  apply (derivable_pt_lim_ext
           (fun y => c1 * y ^ 0 + 2 * c2 * y ^ 1 + 3 * c3 * y ^ 2 + 4 * c4 * y ^ 3)).
  - intros y. unfold quartic_d1. ring.
  - replace (q2 x)
      with (c1 * (INR 0 * x ^ pred 0) + 2 * c2 * (INR 1 * x ^ pred 1)
            + 3 * c3 * (INR 2 * x ^ pred 2) + 4 * c4 * (INR 3 * x ^ pred 3))
      by (unfold quartic_d2; simpl; ring).
    monomials.
Qed.

Lemma quartic_d2_derivative (x : R) : derivable_pt_lim q2 x (q3 x).
Proof.
  apply (derivable_pt_lim_ext
           (fun y => 2 * c2 * y ^ 0 + 6 * c3 * y ^ 1 + 12 * c4 * y ^ 2)).
  - intros y. unfold quartic_d2. ring.
  - replace (q3 x)
      with (2 * c2 * (INR 0 * x ^ pred 0) + 6 * c3 * (INR 1 * x ^ pred 1)
            + 12 * c4 * (INR 2 * x ^ pred 2))
      by (unfold quartic_d3; simpl; ring).
    monomials.
Qed.

Lemma quartic_continuity : continuity q.
Proof.
  apply derivable_continuous. intros x. exists (q1 x). apply quartic_derivative.
Qed.

Lemma quartic_RiemannInt (a b : R) (pr : Riemann_integrable q a b) :
  a <= b -> RiemannInt pr = Q b - Q a.
Proof.
  apply RiemannInt_primitive.
  - apply quartic_primitive_derivative.
  - apply quartic_continuity.
Qed.

End Quartic.

Lemma quartic_integrable (c0 c1 c2 c3 c4 a b : R) :
  Riemann_integrable (quartic c0 c1 c2 c3 c4) a b.
Proof.
  destruct (Rle_dec a b) as [Hab|Hba].
  - apply continuity_implies_RiemannInt; [assumption|].
    intros x _. apply quartic_continuity.
  - apply RiemannInt_P1, continuity_implies_RiemannInt; [lra|].
    intros x _. apply quartic_continuity.
Qed.

(** ** The rules on polynomials of degree at most four *)

Lemma trapezoid_formula_ext (g1 g2 : R -> R) (a b : R) (N : Z) :
  (forall x, g1 x = g2 x) -> trapezoid_formula g1 a b N = trapezoid_formula g2 a b N.
Proof.
  intros H. unfold trapezoid_formula. rewrite !H.
  now rewrite (Sigma_ext _ (fun k => g1 (node a b N k)) (fun k => g2 (node a b N k)))
    by (intros; apply H).
Qed.

Lemma simpson_sum_ext (g1 g2 : R -> R) (a b : R) (N : Z) :
  (forall x, g1 x = g2 x) -> simpson_sum g1 a b N = simpson_sum g2 a b N.
Proof.
  intros H. unfold simpson_sum. rewrite !H.
  now rewrite !(Sigma_ext _ (fun k => g1 (node a b N k)) (fun k => g2 (node a b N k)))
    by (intros; apply H).
Qed.

Section QuarticRules.

Variables c0 c1 c2 c3 c4 : R.

#[local] Notation q := (quartic c0 c1 c2 c3 c4).
#[local] Notation q1 := (quartic_d1 c0 c1 c2 c3 c4).
#[local] Notation q3 := (quartic_d3 c0 c1 c2 c3 c4).
#[local] Notation Q := (quartic_primitive c0 c1 c2 c3 c4).

(** One trapezoid against the integral over its bin: the Euler-McLaurin
    correction, exact for a quartic. *)
Lemma trapezoid_bin_quartic (x h : R) :
  / 2 * h * (q x + q (x + h)) =
  (Q (x + h) + h ^ 2 / 12 * q1 (x + h) - h ^ 4 / 720 * q3 (x + h))
  - (Q x + h ^ 2 / 12 * q1 x - h ^ 4 / 720 * q3 x).
Proof.
  unfold quartic, quartic_d1, quartic_d3, quartic_primitive. field.
Qed.

Lemma trapezoid_formula_quartic (a b : R) (N : Z) :
  (1 <= N)%Z ->
  trapezoid_formula q a b N =
  Q b - Q a + step a b N ^ 2 / 12 * (q1 b - q1 a)
  - step a b N ^ 4 / 720 * (q3 b - q3 a).
Proof.
  intros HN. rewrite trapezoid_formula_bins by assumption.
  set (h := step a b N).
  set (P := fun k => Q (node a b N k) + h ^ 2 / 12 * q1 (node a b N k)
                     - h ^ 4 / 720 * q3 (node a b N k)).
  rewrite (Sigma_ext _ _ (fun k => P (k + 1)%Z - P k)).
  - rewrite Sigma_telescope by lia. unfold P.
    rewrite node_0, node_N by lia. ring.
  - intros k _. unfold trapezoid_bin, P. rewrite node_succ.
    apply trapezoid_bin_quartic.
Qed.

(** One parabola against the integral over its two bins: the excess is the
    same for every pair of bins. *)
Lemma simpson_bin_quartic (x h : R) :
  / 3 * h * (q x + 4 * q (x + h) + q (x + 2 * h)) =
  Q (x + 2 * h) - Q x + c4 * (4 / 15) * h ^ 5.
Proof.
  unfold quartic, quartic_primitive. field.
Qed.

Lemma simpson_formula_quartic (a b : R) (N : Z) :
  (2 <= N)%Z -> Z.even N = true ->
  simpson_formula q a b N =
  Q b - Q a + step a b N ^ 4 / 180 * (q3 b - q3 a).
Proof.
  intros HN Heven. rewrite simpson_formula_bins by assumption.
  apply Z.even_spec in Heven. destruct Heven as [m Hm].
  assert (Hm2 : (N / 2 = m)%Z) by (subst N; Z.to_euclidean_division_equations; lia).
  rewrite Hm2.
  set (h := step a b N).
  set (P := fun j => Q (node a b N (2 * j))).
  rewrite (Sigma_ext _ _ (fun j => (P (j + 1)%Z - P j) + c4 * (4 / 15) * h ^ 5)).
  - rewrite Sigma_plus, Sigma_telescope, Sigma_const, Zrange_length by lia.
    replace (m - 1 + 1 - 0)%Z with m by lia.
    rewrite INR_IZR_INZ, Z2Nat.id by lia. unfold P.
    replace (2 * m)%Z with N by lia.
    replace (2 * 0)%Z with 0%Z by lia.
    rewrite node_0, node_N by lia.
    assert (Hb : b - a = 2 * IZR m * h).
    { unfold h, step. rewrite Hm, mult_IZR. field. apply not_0_IZR. lia. }
    unfold quartic_d3.
    replace (6 * c3 + 24 * c4 * b - (6 * c3 + 24 * c4 * a))
      with (24 * c4 * (b - a)) by ring.
    rewrite Hb. field.
  - intros j _. unfold simpson_bin, P. fold h.
    replace (2 * (j + 1))%Z with (2 * j + 1 + 1)%Z by lia.
    replace (2 * j + 2)%Z with (2 * j + 1 + 1)%Z by lia.
    rewrite !node_succ. fold h.
    replace (node a b N (2 * j) + h + h) with (node a b N (2 * j) + 2 * h) by ring.
    apply simpson_bin_quartic.
Qed.

End QuarticRules.

(** X4. In exact arithmetic. On a polynomial of degree at most four the
    Trapezoidal cell returns the integral plus the two Euler-McLaurin
    corrections [h^2/12 (f'(b) - f'(a)) - h^4/720 (f'''(b) - f'''(a))], with no
    remainder. *)
Theorem trapezoid_euler_mclaurin (c0 c1 c2 c3 c4 a b : R) (N : Z)
    (pr : Riemann_integrable (quartic c0 c1 c2 c3 c4) a b) :
  a < b -> (1 <= N)%Z ->
  value_of (integral1 (quartic c0 c1 c2 c3 c4) a b N) =
    Some (RiemannInt pr
          + step a b N ^ 2 / 12
            * (quartic_d1 c0 c1 c2 c3 c4 b - quartic_d1 c0 c1 c2 c3 c4 a)
          - step a b N ^ 4 / 720
            * (quartic_d3 c0 c1 c2 c3 c4 b - quartic_d3 c0 c1 c2 c3 c4 a)).
Proof.
  intros Hab HN. rewrite integral1_value by (lia || lra).
  rewrite trapezoid_formula_quartic by assumption.
  now rewrite quartic_RiemannInt by lra.
Qed.

Lemma trapezoid_euler_mclaurin_witness :
  value_of (integral1 (quartic 1 2 3 4 5) 0 1 10) =
    Some (RiemannInt (quartic_integrable 1 2 3 4 5 0 1)
          + step 0 1 10 ^ 2 / 12
            * (quartic_d1 1 2 3 4 5 1 - quartic_d1 1 2 3 4 5 0)
          - step 0 1 10 ^ 4 / 720
            * (quartic_d3 1 2 3 4 5 1 - quartic_d3 1 2 3 4 5 0)).
Proof.
  apply (trapezoid_euler_mclaurin 1 2 3 4 5 0 1 10); [lra | lia].
Defined.

(** X5. In exact arithmetic. On a polynomial of degree at most four Simpson's
    cell returns the integral plus [h^4/180 (f'''(b) - f'''(a))], with no
    remainder. *)
Theorem simpson_euler_mclaurin (c0 c1 c2 c3 c4 a b : R) (N : Z)
    (pr : Riemann_integrable (quartic c0 c1 c2 c3 c4) a b) :
  a < b -> (2 <= N)%Z -> Z.even N = true ->
  value_of (integral (quartic c0 c1 c2 c3 c4) a b N) =
    Some (RiemannInt pr
          + step a b N ^ 4 / 180
            * (quartic_d3 c0 c1 c2 c3 c4 b - quartic_d3 c0 c1 c2 c3 c4 a)).
Proof.
  intros Hab HN Heven. rewrite integral_value by (lia || lra).
  rewrite simpson_sum_even by assumption.
  rewrite simpson_formula_quartic by assumption.
  now rewrite quartic_RiemannInt by lra.
Qed.

Lemma simpson_euler_mclaurin_witness :
  value_of (integral (quartic 1 2 3 4 5) 0 1 10) =
    Some (RiemannInt (quartic_integrable 1 2 3 4 5 0 1)
          + step 0 1 10 ^ 4 / 180
            * (quartic_d3 1 2 3 4 5 1 - quartic_d3 1 2 3 4 5 0)).
Proof.
  apply (simpson_euler_mclaurin 1 2 3 4 5 0 1 10); [lra | lia | reflexivity].
Defined.

Lemma affine_continuity (c0 c1 : R) : continuity (affine c0 c1).
Proof. unfold affine. reg. Qed.

Lemma affine_integrable (c0 c1 a b : R) : Riemann_integrable (affine c0 c1) a b.
Proof.
  destruct (Rle_dec a b) as [Hab|Hba].
  - apply continuity_implies_RiemannInt; [assumption|].
    intros x _. apply affine_continuity.
  - apply RiemannInt_P1, continuity_implies_RiemannInt; [lra|].
    intros x _. apply affine_continuity.
Qed.

(** X6. In exact arithmetic. The Trapezoidal cell is exact on every polynomial
    of degree at most one. *)
Theorem trapezoid_exact_on_affine (c0 c1 a b : R) (N : Z)
    (pr : Riemann_integrable (affine c0 c1) a b) :
  a < b -> (1 <= N)%Z ->
  value_of (integral1 (affine c0 c1) a b N) = Some (RiemannInt pr).
Proof.
  intros Hab HN. rewrite integral1_value by (lia || lra).
  assert (E : forall x, affine c0 c1 x = quartic c0 c1 0 0 0 x)
    by (intros x; unfold affine, quartic; ring).
  rewrite (trapezoid_formula_ext _ _ a b N E).
  rewrite trapezoid_formula_quartic by assumption.
  rewrite (RiemannInt_P18 pr (quartic_integrable c0 c1 0 0 0 a b))
    by (lra || (intros; apply E)).
  rewrite quartic_RiemannInt by lra.
  f_equal. unfold quartic_d1, quartic_d3. ring.
Qed.

Lemma trapezoid_exact_on_affine_witness :
  value_of (integral1 (affine 1 2) 0 1 1) =
    Some (RiemannInt (affine_integrable 1 2 0 1)).
Proof.
  apply (trapezoid_exact_on_affine 1 2 0 1 1); [lra | lia].
Defined.

Lemma step_halved (a b : R) (N : Z) :
  N <> 0%Z -> step a b (2 * N) = step a b N / 2.
Proof.
  intros HN. rewrite (step_double a b N HN). field.
Qed.

(** X7. In exact arithmetic. On a polynomial of degree at most three, doubling
    the number of bins divides the error of the Trapezoidal cell by exactly
    four. *)
Theorem trapezoid_error_quarters (c0 c1 c2 c3 a b : R) (N : Z)
    (pr : Riemann_integrable (cubic c0 c1 c2 c3) a b) :
  a < b -> (1 <= N)%Z ->
  exists T1 T2 : R,
    value_of (integral1 (cubic c0 c1 c2 c3) a b N) = Some T1 /\
    value_of (integral1 (cubic c0 c1 c2 c3) a b (2 * N)) = Some T2 /\
    T2 - RiemannInt pr = (T1 - RiemannInt pr) / 4.
Proof.
  intros Hab HN.
  assert (E : forall x, cubic c0 c1 c2 c3 x = quartic c0 c1 c2 c3 0 x)
    by (intros x; unfold cubic, quartic; ring).
  exists (trapezoid_formula (cubic c0 c1 c2 c3) a b N),
         (trapezoid_formula (cubic c0 c1 c2 c3) a b (2 * N)).
  rewrite !integral1_value by (lia || lra).
  split; [reflexivity|]. split; [reflexivity|].
  rewrite !(trapezoid_formula_ext _ _ a b _ E).
  rewrite !trapezoid_formula_quartic by lia.
  rewrite cubic_RiemannInt by lra.
  rewrite step_halved by lia.
  unfold quartic_d3, quartic_primitive, cubic_primitive. field.
Qed.

Lemma trapezoid_error_quarters_witness :
  exists T1 T2 : R,
    value_of (integral1 (cubic 1 2 3 4) 0 1 10) = Some T1 /\
    value_of (integral1 (cubic 1 2 3 4) 0 1 (2 * 10)) = Some T2 /\
    T2 - RiemannInt (cubic_integrable 1 2 3 4 0 1) =
      (T1 - RiemannInt (cubic_integrable 1 2 3 4 0 1)) / 4.
Proof.
  apply (trapezoid_error_quarters 1 2 3 4 0 1 10); [lra | lia].
Defined.

(** X8. In exact arithmetic. On a polynomial of degree at most four, doubling
    the number of bins divides the error of Simpson's cell by exactly sixteen. *)
Theorem simpson_error_sixteenth (c0 c1 c2 c3 c4 a b : R) (N : Z)
    (pr : Riemann_integrable (quartic c0 c1 c2 c3 c4) a b) :
  a < b -> (2 <= N)%Z -> Z.even N = true ->
  exists S1 S2 : R,
    value_of (integral (quartic c0 c1 c2 c3 c4) a b N) = Some S1 /\
    value_of (integral (quartic c0 c1 c2 c3 c4) a b (2 * N)) = Some S2 /\
    S2 - RiemannInt pr = (S1 - RiemannInt pr) / 16.
Proof.
  intros Hab HN Heven.
  assert (Heven2 : Z.even (2 * N) = true) by (rewrite Z.even_mul; reflexivity).
  exists (simpson_formula (quartic c0 c1 c2 c3 c4) a b N),
         (simpson_formula (quartic c0 c1 c2 c3 c4) a b (2 * N)).
  rewrite !integral_value by (lia || lra).
  rewrite !simpson_sum_even by assumption.
  split; [reflexivity|]. split; [reflexivity|].
  rewrite !simpson_formula_quartic by (assumption || lia).
  rewrite quartic_RiemannInt by lra.
  rewrite step_halved by lia. field.
Qed.

Lemma simpson_error_sixteenth_witness :
  exists S1 S2 : R,
    value_of (integral (quartic 1 2 3 4 5) 0 1 10) = Some S1 /\
    value_of (integral (quartic 1 2 3 4 5) 0 1 (2 * 10)) = Some S2 /\
    S2 - RiemannInt (quartic_integrable 1 2 3 4 5 0 1) =
      (S1 - RiemannInt (quartic_integrable 1 2 3 4 5 0 1)) / 16.
Proof.
  apply (simpson_error_sixteenth 1 2 3 4 5 0 1 10); [lra | lia | reflexivity].
Defined.

(** ** The notebook's integrand with any number of bins *)

Lemma f_quartic (x : R) : f x = quartic 0 0 0 0 1 x.
Proof. unfold f, quartic. ring. Qed.

Lemma step_unit (N : Z) : (1 <= N)%Z -> 0 < step 0 1 N <= 1.
Proof.
  intros HN. unfold step.
  assert (1 <= IZR N) by (apply IZR_le in HN; exact HN).
  replace ((1 - 0) / IZR N) with (/ IZR N) by (field; lra).
  split.
  - apply Rinv_0_lt_compat. lra.
  - rewrite <- Rinv_1. apply Rinv_le_contravar; lra.
Qed.

Lemma trapezoid_formula_x4_any (N : Z) :
  (1 <= N)%Z ->
  trapezoid_formula f 0 1 N = 1 / 5 + step 0 1 N ^ 2 / 3 - step 0 1 N ^ 4 / 30.
Proof.
  intros HN. rewrite (trapezoid_formula_ext _ _ 0 1 N f_quartic).
  rewrite trapezoid_formula_quartic by assumption.
  unfold quartic_primitive, quartic_d1, quartic_d3. field.
Qed.

Lemma simpson_formula_x4_any (N : Z) :
  (2 <= N)%Z -> Z.even N = true ->
  simpson_sum f 0 1 N = 1 / 5 + 2 * step 0 1 N ^ 4 / 15.
Proof.
  intros HN Heven. rewrite (simpson_sum_ext _ _ 0 1 N f_quartic).
  rewrite simpson_sum_even by assumption.
  rewrite simpson_formula_quartic by assumption.
  unfold quartic_primitive, quartic_d3. field.
Qed.

Lemma trapezoid_error_x4 (h : R) :
  0 < h <= 1 ->
  error_abs (1 / 5 + h ^ 2 / 3 - h ^ 4 / 30) = h ^ 2 / 3 - h ^ 4 / 30.
Proof.
  intros Hh. unfold error_abs.
  assert (Hu : 0 < h * h <= 1) by nra.
  replace (h ^ 4) with ((h * h) * (h * h)) by ring.
  replace (h ^ 2) with (h * h) by ring.
  rewrite Rabs_left; nra.
Qed.

(** X9. In exact arithmetic. With the notebook's integrand on [0,1] and any [N
    >= 1] the first cell prints [1/5 + h^2/3 - h^4/30] and the error [h^2/3 -
    h^4/30]. *)
Theorem trapezoid_cell_x4 (N : Z) :
  (1 <= N)%Z ->
  value_of (trapezoid_cell f 0 1 N) =
    Some (1 / 5 + step 0 1 N ^ 2 / 3 - step 0 1 N ^ 4 / 30,
          step 0 1 N ^ 2 / 3 - step 0 1 N ^ 4 / 30).
Proof.
  intros HN. rewrite trapezoid_cell_value by (lia || lra).
  rewrite trapezoid_formula_x4_any by assumption.
  now rewrite trapezoid_error_x4 by now apply step_unit.
Qed.

Lemma trapezoid_cell_x4_witness :
  value_of (trapezoid_cell f 0 1 10) =
    Some (1 / 5 + step 0 1 10 ^ 2 / 3 - step 0 1 10 ^ 4 / 30,
          step 0 1 10 ^ 2 / 3 - step 0 1 10 ^ 4 / 30).
Proof.
  apply (trapezoid_cell_x4 10). lia.
Defined.

(** X10. In exact arithmetic. With the notebook's integrand on [0,1] and any [N
    >= 1] the second cell prints the estimate [h^2/3], the actual error [h^2/3 -
    h^4/30] and [h]: the Euler-McLaurin estimate exceeds the actual error by
    [h^4/30]. *)
Theorem euler_mclaurin_cell_x4 (N : Z) :
  (1 <= N)%Z ->
  value_of (euler_mclaurin_cell f 0 1 N) =
    Some (step 0 1 N ^ 2 / 3,
          step 0 1 N ^ 2 / 3 - step 0 1 N ^ 4 / 30,
          step 0 1 N).
Proof.
  intros HN. rewrite euler_mclaurin_cell_value by (lia || lra).
  rewrite trapezoid_formula_x4_any by assumption.
  rewrite trapezoid_error_x4 by now apply step_unit.
  do 3 f_equal. unfold error_mc.
  pose proof (step_unit N HN) as Hh.
  rewrite Rabs_left by nra. field.
Qed.

Lemma euler_mclaurin_cell_x4_witness :
  value_of (euler_mclaurin_cell f 0 1 10) =
    Some (step 0 1 10 ^ 2 / 3,
          step 0 1 10 ^ 2 / 3 - step 0 1 10 ^ 4 / 30,
          step 0 1 10).
Proof.
  apply (euler_mclaurin_cell_x4 10). lia.
Defined.

(** X11. In exact arithmetic. With the notebook's integrand on [0,1] and any
    even [N >= 2] the last cell prints [1/5 + 2 h^4/15], the error [2 h^4/15]
    and [h]. *)
Theorem simpson_cell_x4 (N : Z) :
  (2 <= N)%Z -> Z.even N = true ->
  value_of (simpson_cell f 0 1 N) =
    Some (1 / 5 + 2 * step 0 1 N ^ 4 / 15, 2 * step 0 1 N ^ 4 / 15, step 0 1 N).
Proof.
  intros HN Heven. rewrite simpson_cell_value by (lia || lra).
  rewrite simpson_formula_x4_any by assumption.
  do 3 f_equal. unfold error_abs.
  assert (Hh : 0 < step 0 1 N <= 1) by (apply step_unit; lia).
  assert (0 < step 0 1 N ^ 4) by (apply pow_lt; lra).
  rewrite Rabs_left; lra.
Qed.

Lemma simpson_cell_x4_witness :
  value_of (simpson_cell f 0 1 10) =
    Some (1 / 5 + 2 * step 0 1 10 ^ 4 / 15, 2 * step 0 1 10 ^ 4 / 15, step 0 1 10).
Proof.
  apply (simpson_cell_x4 10); [lia | reflexivity].
Defined.

(** ** Where the integrand is evaluated *)

Lemma step_pos (a b : R) (N : Z) : a < b -> (1 <= N)%Z -> 0 < step a b N.
Proof.
  intros Hab HN. unfold step.
  apply Rdiv_lt_0_compat; [lra|]. apply IZR_lt. lia.
Qed.

Lemma node_between (a b : R) (N k : Z) :
  a < b -> (1 <= N)%Z -> (0 <= k <= N)%Z -> a <= node a b N k <= b.
Proof.
  intros Hab HN Hk.
  pose proof (step_pos a b N Hab HN) as Hh.
  assert (H0 : 0 <= IZR k) by (apply IZR_le; lia).
  assert (H1 : 0 <= IZR (N - k)) by (apply IZR_le; lia).
  rewrite minus_IZR in H1.
  rewrite <- (node_N a b N) at 3 by lia.
  unfold node. split; nra.
Qed.

Lemma every_second_In (lo : Z) (n : nat) (k : Z) :
  In k (every_second lo n) -> (lo <= k <= lo + 2 * (Z.of_nat n - 1))%Z.
Proof.
  unfold every_second. rewrite in_map_iff.
  intros [i [<- Hi]]. apply in_seq in Hi. lia.
Qed.

Lemma evaluation_inside (g : R -> R) (a b : R) (N : Z) (t : list R) (x : R) :
  a < b -> (1 <= N)%Z ->
  evals_of (integral1 g a b N) = Some t \/ evals_of (integral g a b N) = Some t ->
  In x t -> a <= x <= b.
Proof.
  intros Hab HN Ht Hx.
  assert (Hends : In x [a; b] -> a <= x <= b).
  { intros [<- | [<- | []]]; lra. }
  destruct Ht as [Ht | Ht].
  - rewrite integral1_run in Ht by (lia || lra).
    injection Ht as <-. apply in_app_or in Hx.
    destruct Hx as [Hx | Hx]; [|now apply Hends].
    apply in_map_iff in Hx. destruct Hx as [k [<- Hk]].
    apply Zrange_In in Hk. apply node_between; (assumption || lia).
  - rewrite integral_run in Ht by (lia || lra).
    injection Ht as <-.
    assert (Hdiv : (N / 2 <= N)%Z /\ (2 * (N / 2) <= N)%Z /\ (2 * ((N - 1) / 2) <= N - 1)%Z)
      by (Z.to_euclidean_division_equations; lia).
    apply in_app_or in Hx. destruct Hx as [Hx | Hx];
      [|apply in_app_or in Hx; destruct Hx as [Hx | Hx]; [|now apply Hends]].
    + apply in_map_iff in Hx. destruct Hx as [k [<- Hk]].
      apply every_second_In in Hk. apply node_between; (assumption || lia).
    + apply in_map_iff in Hx. destruct Hx as [k [<- Hk]].
      apply every_second_In in Hk. apply node_between; (assumption || lia).
Qed.

(** X12. In exact arithmetic. For [a < b] and [N >= 1] neither cell evaluates
    the integrand outside [[a, b]], whatever the parity of [N]. *)
Theorem evaluations_inside (g : R -> R) (a b : R) (N : Z) :
  a < b -> (1 <= N)%Z ->
  (exists t, evals_of (integral1 g a b N) = Some t /\
             Forall (fun x => a <= x <= b) t) /\
  (exists t, evals_of (integral g a b N) = Some t /\
             Forall (fun x => a <= x <= b) t).
Proof.
  intros Hab HN. split.
  - destruct (integral1 g a b N) as [v t|e] eqn:E;
      [|rewrite integral1_run in E by (lia || lra); discriminate E].
    exists t. split; [reflexivity|].
    apply Forall_forall. intros x Hx.
    apply (evaluation_inside g a b N t x); try assumption.
    left. now rewrite E.
  - destruct (integral g a b N) as [v t|e] eqn:E;
      [|rewrite integral_run in E by (lia || lra); discriminate E].
    exists t. split; [reflexivity|].
    apply Forall_forall. intros x Hx.
    apply (evaluation_inside g a b N t x); try assumption.
    right. now rewrite E.
Qed.

Lemma evaluations_inside_witness :
  (exists t, evals_of (integral1 f 0 1 5) = Some t /\
             Forall (fun x => 0 <= x <= 1) t) /\
  (exists t, evals_of (integral f 0 1 5) = Some t /\
             Forall (fun x => 0 <= x <= 1) t).
Proof.
  apply (evaluations_inside f 0 1 5); [lra | lia].
Defined.

(** ** Order and size *)

Lemma trapezoid_formula_le (g1 g2 : R -> R) (a b : R) (N : Z) :
  a < b -> (1 <= N)%Z ->
  (forall x, a <= x <= b -> g1 x <= g2 x) ->
  trapezoid_formula g1 a b N <= trapezoid_formula g2 a b N.
Proof.
  intros Hab HN Hg. unfold trapezoid_formula.
  pose proof (step_pos a b N Hab HN) as Hh.
  assert (Ha : g1 a <= g2 a) by (apply Hg; lra).
  assert (Hb : g1 b <= g2 b) by (apply Hg; lra).
  assert (Hs : Sigma (Zrange 1 (N - 1)) (fun k => g1 (node a b N k)) <=
               Sigma (Zrange 1 (N - 1)) (fun k => g2 (node a b N k))).
  { apply Sigma_le. intros k Hk. apply Zrange_In in Hk.
    apply Hg, node_between; (assumption || lia). }
  apply Rmult_le_compat_l; lra.
Qed.

Lemma simpson_sum_le (g1 g2 : R -> R) (a b : R) (N : Z) :
  a < b -> (1 <= N)%Z ->
  (forall x, a <= x <= b -> g1 x <= g2 x) ->
  simpson_sum g1 a b N <= simpson_sum g2 a b N.
Proof.
  intros Hab HN Hg. unfold simpson_sum.
  pose proof (step_pos a b N Hab HN) as Hh.
  assert (Ha : g1 a <= g2 a) by (apply Hg; lra).
  assert (Hb : g1 b <= g2 b) by (apply Hg; lra).
  assert (Hs : forall (P : Z -> bool) lo,
             (0 <= lo)%Z ->
             Sigma (filter P (Zrange lo (N - 1))) (fun k => g1 (node a b N k)) <=
             Sigma (filter P (Zrange lo (N - 1))) (fun k => g2 (node a b N k))).
  { intros P lo Hlo. apply Sigma_le. intros k Hk.
    apply filter_In in Hk. destruct Hk as [Hk _]. apply Zrange_In in Hk.
    apply Hg, node_between; (assumption || lia). }
  pose proof (Hs Z.odd 1%Z ltac:(lia)). pose proof (Hs Z.even 2%Z ltac:(lia)).
  apply Rmult_le_compat_l; lra.
Qed.

(** X13. In exact arithmetic. Both cells preserve order: a smaller integrand on
    [[a, b]] gives a smaller result (all weights are positive). *)
Theorem rules_monotone (g1 g2 : R -> R) (a b : R) (N : Z) :
  a < b -> (1 <= N)%Z ->
  (forall x, a <= x <= b -> g1 x <= g2 x) ->
  (exists v1 v2 : R,
     value_of (integral1 g1 a b N) = Some v1 /\
     value_of (integral1 g2 a b N) = Some v2 /\ v1 <= v2) /\
  (exists v1 v2 : R,
     value_of (integral g1 a b N) = Some v1 /\
     value_of (integral g2 a b N) = Some v2 /\ v1 <= v2).
Proof.
  intros Hab HN Hg. split.
  - exists (trapezoid_formula g1 a b N), (trapezoid_formula g2 a b N).
    rewrite !integral1_value by (lia || lra).
    repeat split. now apply trapezoid_formula_le.
  - exists (simpson_sum g1 a b N), (simpson_sum g2 a b N).
    rewrite !integral_value by (lia || lra).
    repeat split. now apply simpson_sum_le.
Qed.

Lemma rules_monotone_witness :
  (exists v1 v2 : R,
     value_of (integral1 f 0 1 10) = Some v1 /\
     value_of (integral1 (cubic 0 0 0 1) 0 1 10) = Some v2 /\ v1 <= v2) /\
  (exists v1 v2 : R,
     value_of (integral f 0 1 10) = Some v1 /\
     value_of (integral (cubic 0 0 0 1) 0 1 10) = Some v2 /\ v1 <= v2).
Proof.
  apply (rules_monotone f (cubic 0 0 0 1) 0 1 10); [lra | lia |].
  intros x Hx. unfold f, cubic.
  assert (0 <= x * x * x) by (apply Rmult_le_pos; nra).
  nra.
Defined.

Lemma trapezoid_formula_const (c a b : R) (N : Z) :
  (1 <= N)%Z -> trapezoid_formula (fun _ => c) a b N = c * (b - a).
Proof.
  intros HN.
  rewrite (trapezoid_formula_ext _ (quartic c 0 0 0 0))
    by (intros x; unfold quartic; ring).
  rewrite trapezoid_formula_quartic by assumption.
  unfold quartic_primitive, quartic_d1, quartic_d3. field.
Qed.

Lemma simpson_formula_const (c a b : R) (N : Z) :
  (2 <= N)%Z -> Z.even N = true ->
  simpson_sum (fun _ => c) a b N = c * (b - a).
Proof.
  intros HN Heven.
  rewrite (simpson_sum_ext _ (quartic c 0 0 0 0))
    by (intros x; unfold quartic; ring).
  rewrite simpson_sum_even by assumption.
  rewrite simpson_formula_quartic by assumption.
  unfold quartic_primitive, quartic_d3. field.
Qed.

(** X14. In exact arithmetic. If the integrand is bounded by [M] on [[a, b]],
    the Trapezoidal result, and Simpson's for an even [N], is bounded by [M (b -
    a)]. *)
Theorem rules_bounded (g : R -> R) (a b M : R) (N : Z) :
  a < b -> (1 <= N)%Z ->
  (forall x, a <= x <= b -> Rabs (g x) <= M) ->
  (exists v, value_of (integral1 g a b N) = Some v /\ Rabs v <= M * (b - a)) /\
  (Z.even N = true ->
   exists v, value_of (integral g a b N) = Some v /\ Rabs v <= M * (b - a)).
Proof.
  intros Hab HN Hg.
  assert (Hlo : forall x, a <= x <= b -> - M <= g x).
  { intros x Hx. specialize (Hg x Hx).
    pose proof (Rle_abs (- g x)) as H. rewrite Rabs_Ropp in H. lra. }
  assert (Hhi : forall x, a <= x <= b -> g x <= M).
  { intros x Hx. specialize (Hg x Hx). pose proof (Rle_abs (g x)). lra. }
  split.
  - exists (trapezoid_formula g a b N).
    rewrite integral1_value by (lia || lra). split; [reflexivity|].
    pose proof (trapezoid_formula_le (fun _ => - M) g a b N Hab HN Hlo) as H1.
    pose proof (trapezoid_formula_le g (fun _ => M) a b N Hab HN Hhi) as H2.
    rewrite trapezoid_formula_const in H1, H2 by assumption.
    apply Rabs_le. lra.
  - intros Heven. assert (HN2 : (2 <= N)%Z).
    { destruct (Z.eq_dec N 1) as [-> | ]; [discriminate Heven | lia]. }
    exists (simpson_sum g a b N).
    rewrite integral_value by (lia || lra). split; [reflexivity|].
    pose proof (simpson_sum_le (fun _ => - M) g a b N Hab HN Hlo) as H1.
    pose proof (simpson_sum_le g (fun _ => M) a b N Hab HN Hhi) as H2.
    rewrite simpson_formula_const in H1, H2 by assumption.
    apply Rabs_le. lra.
Qed.

Lemma rules_bounded_witness :
  (exists v, value_of (integral1 f 0 1 10) = Some v /\ Rabs v <= 1 * (1 - 0)) /\
  (exists v, value_of (integral f 0 1 10) = Some v /\ Rabs v <= 1 * (1 - 0)).
Proof.
  assert (Hf : forall x, 0 <= x <= 1 -> Rabs (f x) <= 1).
  { intros x Hx. unfold f.
    assert (0 <= x * x <= 1) by nra.
    replace (x ^ 4) with ((x * x) * (x * x)) by ring.
    rewrite Rabs_right; nra. }
  destruct (rules_bounded f 0 1 1 10) as [Ht Hs]; [lra | lia | exact Hf |].
  split; [exact Ht | apply Hs; reflexivity].
Defined.

(** ** Reversing the interval *)

Lemma step_reverse (a b : R) (N : Z) : step b a N = - step a b N.
Proof. unfold step. unfold Rdiv. ring. Qed.

Lemma node_reverse (a b : R) (N k : Z) :
  N <> 0%Z -> node b a N k = node a b N (N - k).
Proof.
  intros HN. unfold node, step. rewrite minus_IZR.
  field. now apply not_0_IZR.
Qed.

Lemma trapezoid_formula_reverse (g : R -> R) (a b : R) (N : Z) :
  N <> 0%Z -> trapezoid_formula g b a N = - trapezoid_formula g a b N.
Proof.
  intros HN. unfold trapezoid_formula. rewrite step_reverse.
  rewrite (Sigma_ext _ (fun k => g (node b a N k))
             (fun k => g (node a b N (1 + (N - 1) - k))))
    by (intros k _; rewrite node_reverse by assumption; f_equal; f_equal; lia).
  rewrite (Sigma_reflect 1 (N - 1) (fun k => g (node a b N k))).
  ring.
Qed.

(** X15. In exact arithmetic. Swapping the limits of integration changes the
    sign of the Trapezoidal result. *)
Theorem trapezoid_reversal (g : R -> R) (a b : R) (N : Z) (T : R) :
  value_of (integral1 g a b N) = Some T ->
  value_of (integral1 g b a N) = Some (- T).
Proof.
  intros H.
  destruct (Z.eq_dec N 0) as [HN | HN].
  { rewrite integral1_raises in H by (now left). discriminate H. }
  destruct (Req_dec a b) as [Hab | Hab].
  { rewrite integral1_raises in H by (now right). discriminate H. }
  rewrite integral1_value in H by assumption. injection H as <-.
  rewrite integral1_value by (assumption || (intros E; now apply Hab)).
  now rewrite trapezoid_formula_reverse.
Qed.

Lemma trapezoid_reversal_witness :
  value_of (integral1 f 1 0 10) = Some (- trapezoid_formula f 0 1 10).
Proof.
  apply (trapezoid_reversal f 0 1 10).
  apply integral1_value; (lia || lra).
Defined.

(** X16. In exact arithmetic. With an even [N], swapping the limits of
    integration changes the sign of Simpson's result. *)
Theorem simpson_reversal (g : R -> R) (a b : R) (N : Z) (S0 : R) :
  Z.even N = true ->
  value_of (integral g a b N) = Some S0 ->
  value_of (integral g b a N) = Some (- S0).
Proof.
  intros Heven H.
  destruct (Z.eq_dec N 0) as [HN | HN].
  { rewrite integral_raises in H by (now left). discriminate H. }
  destruct (Req_dec a b) as [Hab | Hab].
  { rewrite integral_raises in H by (now right). discriminate H. }
  rewrite integral_value in H by assumption. injection H as <-.
  rewrite integral_value by (assumption || (intros E; now apply Hab)).
  apply Z.even_spec in Heven. destruct Heven as [m ->].
  rewrite !simpson_sum_richardson by lia.
  rewrite (trapezoid_formula_reverse g a b (2 * m)),
    (trapezoid_formula_reverse g a b m) by lia.
  f_equal. field.
Qed.

Lemma simpson_reversal_witness :
  value_of (integral f 1 0 10) = Some (- simpson_sum f 0 1 10).
Proof.
  apply (simpson_reversal f 0 1 10); [reflexivity|].
  apply integral_value; (lia || lra).
Defined.

(** ** Adjacent intervals *)

Lemma trapezoid_formula_adjacent (g : R -> R) (a c b : R) (N M : Z) :
  (1 <= N)%Z -> (1 <= M)%Z -> step a c N = step c b M ->
  trapezoid_formula g a b (N + M) =
  trapezoid_formula g a c N + trapezoid_formula g c b M.
Proof.
  intros HN HM Hstep.
  assert (HN' : IZR N <> 0) by (apply not_0_IZR; lia).
  assert (HM' : IZR M <> 0) by (apply not_0_IZR; lia).
  assert (HNM' : IZR N + IZR M <> 0).
  { rewrite <- plus_IZR. apply not_0_IZR. lia. }
  assert (Hc : c = a + IZR N * step a c N) by (unfold step; field; assumption).
  assert (Hb : b = c + IZR M * step a c N)
    by (rewrite Hstep; unfold step; field; assumption).
  assert (Hh : step a b (N + M) = step a c N).
  { unfold step at 1. rewrite plus_IZR.
    replace (b - a) with ((IZR N + IZR M) * step a c N) by lra.
    field. assumption. }
  rewrite !trapezoid_formula_bins by lia.
  rewrite (Zrange_app 0 (N - 1) (N + M - 1)) by lia.
  rewrite Sigma_app. f_equal.
  - apply Sigma_ext. intros k _. unfold trapezoid_bin, node. now rewrite Hh.
  - replace (N - 1 + 1)%Z with (0 + N)%Z by lia.
    replace (N + M - 1)%Z with (M - 1 + N)%Z by lia.
    rewrite Zrange_shift, Sigma_map.
    apply Sigma_ext. intros k _. unfold trapezoid_bin, node.
    rewrite Hh, <- Hstep, !plus_IZR.
    replace (a + (IZR k + IZR N) * step a c N) with (c + IZR k * step a c N) by lra.
    replace (a + (IZR k + IZR N + 1) * step a c N)
      with (c + (IZR k + 1) * step a c N) by lra.
    reflexivity.
Qed.

(** X17. In exact arithmetic. Two Trapezoidal runs over adjacent intervals with
    the same bin size add up to the run over the whole interval. *)
Theorem trapezoid_adjacent (g : R -> R) (a c b : R) (N M : Z) (T1 T2 : R) :
  (1 <= N)%Z -> (1 <= M)%Z -> (c - a) / IZR N = (b - c) / IZR M ->
  value_of (integral1 g a c N) = Some T1 ->
  value_of (integral1 g c b M) = Some T2 ->
  value_of (integral1 g a b (N + M)) = Some (T1 + T2).
Proof.
  intros HN HM Hstep H1 H2.
  destruct (Req_dec a c) as [Hac | Hac].
  { rewrite integral1_raises in H1 by (now right). discriminate H1. }
  rewrite integral1_value in H1 by (assumption || lia). injection H1 as <-.
  destruct (Req_dec c b) as [Hcb | Hcb].
  { rewrite integral1_raises in H2 by (now right). discriminate H2. }
  rewrite integral1_value in H2 by (assumption || lia). injection H2 as <-.
  assert (Hab : a <> b).
  { pose proof (step_nonzero a c N ltac:(lia) Hac) as Hh.
    assert (HN' : IZR N <> 0) by (apply not_0_IZR; lia).
    assert (HM' : IZR M <> 0) by (apply not_0_IZR; lia).
    assert (H1 : 1 <= IZR N) by (apply IZR_le; lia).
    assert (H2 : 1 <= IZR M) by (apply IZR_le; lia).
    assert (Hc : c - a = IZR N * step a c N) by (unfold step; field; assumption).
    assert (Hb : b - c = IZR M * step a c N)
      by (unfold step; rewrite Hstep; field; assumption).
    intros E. apply Hh.
    assert (E2 : (IZR N + IZR M) * step a c N = 0) by lra.
    apply Rmult_integral in E2. destruct E2; lra. }
  rewrite integral1_value by (assumption || lia).
  now rewrite (trapezoid_formula_adjacent g a c b N M).
Qed.

Lemma trapezoid_adjacent_witness :
  value_of (integral1 f 0 3 (10 + 20)) =
    Some (trapezoid_formula f 0 1 10 + trapezoid_formula f 1 3 20).
Proof.
  apply (trapezoid_adjacent f 0 1 3 10 20); try lia; try lra;
    apply integral1_value; (lia || lra).
Defined.

(** X18. In exact arithmetic. Two Simpson runs over adjacent intervals with the
    same bin size and even bin counts add up to the run over the whole interval. *)
Theorem simpson_adjacent (g : R -> R) (a c b : R) (N M : Z) (V1 V2 : R) :
  (2 <= N)%Z -> (2 <= M)%Z -> Z.even N = true -> Z.even M = true ->
  (c - a) / IZR N = (b - c) / IZR M ->
  value_of (integral g a c N) = Some V1 ->
  value_of (integral g c b M) = Some V2 ->
  value_of (integral g a b (N + M)) = Some (V1 + V2).
Proof.
  intros HN HM HNe HMe Hstep H1 H2.
  destruct (Req_dec a c) as [Hac | Hac].
  { rewrite integral_raises in H1 by (now right). discriminate H1. }
  rewrite integral_value in H1 by (assumption || lia). injection H1 as <-.
  destruct (Req_dec c b) as [Hcb | Hcb].
  { rewrite integral_raises in H2 by (now right). discriminate H2. }
  rewrite integral_value in H2 by (assumption || lia). injection H2 as <-.
  apply Z.even_spec in HNe, HMe.
  destruct HNe as [n ->]. destruct HMe as [m ->].
  assert (Hn : IZR n <> 0) by (apply not_0_IZR; lia).
  assert (Hm : IZR m <> 0) by (apply not_0_IZR; lia).
  rewrite !mult_IZR in Hstep.
  assert (Hstep1 : step a c n = step c b m).
  { unfold step.
    apply (f_equal (fun x => 2 * x)) in Hstep.
    replace (2 * ((c - a) / (2 * IZR n))) with ((c - a) / IZR n) in Hstep
      by (field; assumption).
    replace (2 * ((b - c) / (2 * IZR m))) with ((b - c) / IZR m) in Hstep
      by (field; assumption).
    exact Hstep. }
  assert (Hstep2 : step a c (2 * n) = step c b (2 * m)).
  { rewrite (step_double a c n), (step_double c b m) in Hstep1 by lia. lra. }
  assert (Hab : a <> b).
  { pose proof (step_nonzero a c n ltac:(lia) Hac) as Hh.
    assert (H1 : 1 <= IZR n) by (apply IZR_le; lia).
    assert (H2 : 1 <= IZR m) by (apply IZR_le; lia).
    assert (Hc : c - a = IZR n * step a c n) by (unfold step; field; assumption).
    assert (Hb : b - c = IZR m * step a c n)
      by (rewrite Hstep1; unfold step; field; assumption).
    intros E. apply Hh.
    assert (E2 : (IZR n + IZR m) * step a c n = 0) by lra.
    apply Rmult_integral in E2. destruct E2; lra. }
  rewrite integral_value by (assumption || lia).
  replace (2 * n + 2 * m)%Z with (2 * (n + m))%Z by lia.
  rewrite !simpson_sum_richardson by lia.
  replace (2 * (n + m))%Z with (2 * n + 2 * m)%Z by lia.
  rewrite (trapezoid_formula_adjacent g a c b (2 * n) (2 * m)) by (assumption || lia).
  rewrite (trapezoid_formula_adjacent g a c b n m) by (assumption || lia).
  f_equal. field.
Qed.

Lemma simpson_adjacent_witness :
  value_of (integral f 0 3 (10 + 20)) =
    Some (simpson_sum f 0 1 10 + simpson_sum f 1 3 20).
Proof.
  apply (simpson_adjacent f 0 1 3 10 20); try lia; try lra; try reflexivity;
    apply integral_value; (lia || lra).
Defined.

(** ** Simpson's cell with an odd number of bins *)

Lemma every_second_length (lo : Z) (n : nat) : length (every_second lo n) = n.
Proof. unfold every_second. now rewrite length_map, length_seq. Qed.

(** X19. In exact arithmetic. With an odd [N] Simpson's cell is not exact even
    on a constant: it returns [c (b - a) (1 - 1 / (3 N))]. *)
Theorem simpson_odd_N_constant (c a b : R) (N : Z) :
  a <> b -> (1 <= N)%Z -> Z.odd N = true ->
  value_of (integral (fun _ => c) a b N) =
    Some (c * (b - a) * (1 - 1 / (3 * IZR N))).
Proof.
  intros Hab HN Hodd. rewrite integral_value by (lia || assumption).
  f_equal. unfold simpson_sum.
  rewrite filter_odd_Zrange, filter_even_Zrange, !Sigma_const, !every_second_length.
  apply Z.odd_spec in Hodd. destruct Hodd as [m Hm].
  replace ((N - 1 + 1) / 2)%Z with m by (subst N; Z.to_euclidean_division_equations; lia).
  replace ((N - 1) / 2)%Z with m by (subst N; Z.to_euclidean_division_equations; lia).
  rewrite INR_IZR_INZ, Z2Nat.id by lia.
  unfold step. rewrite Hm, plus_IZR, mult_IZR.
  assert (0 <= IZR m) by (apply IZR_le; lia).
  field. lra.
Qed.

Lemma simpson_odd_N_constant_witness :
  value_of (integral (fun _ => 1) 0 1 5) = Some (1 * (1 - 0) * (1 - 1 / (3 * 5))).
Proof.
  apply (simpson_odd_N_constant 1 0 1 5); [lra | lia | reflexivity].
Defined.

(** X20. In exact arithmetic. With an odd [N >= 3] Simpson's cell returns
    Simpson's rule over the first [N - 1] bins plus [h/3 (f(b - h) + f(b))] for
    the last bin, two thirds of that bin's trapezoid. *)
Theorem simpson_odd_N_last_bin (g : R -> R) (a b : R) (N : Z) (V : R) :
  a <> b -> (3 <= N)%Z -> Z.odd N = true ->
  value_of (integral g a (node a b N (N - 1)) (N - 1)) = Some V ->
  value_of (integral g a b N) =
    Some (V + step a b N / 3 * (g (node a b N (N - 1)) + g b)).
Proof.
  intros Hab HN Hodd HV.
  set (c := node a b N (N - 1)) in *.
  pose proof (step_nonzero a b N ltac:(lia) Hab) as Hh.
  assert (HN1 : IZR (N - 1) <> 0) by (apply not_0_IZR; lia).
  assert (Hc : c - a = IZR (N - 1) * step a b N) by (unfold c, node; ring).
  assert (Hac : a <> c).
  { intros E. assert (E2 : IZR (N - 1) * step a b N = 0) by lra.
    apply Rmult_integral in E2. destruct E2; contradiction. }
  assert (Hstep : step a c (N - 1) = step a b N).
  { unfold step at 1. rewrite Hc. field. assumption. }
  rewrite integral_value in HV by (assumption || lia). injection HV as <-.
  rewrite integral_value by (assumption || lia). f_equal.
  unfold simpson_sum. rewrite Hstep.
  rewrite !filter_odd_Zrange, !filter_even_Zrange.
  apply Z.odd_spec in Hodd. destruct Hodd as [m Hm].
  replace ((N - 1 + 1) / 2)%Z with m by (subst N; Z.to_euclidean_division_equations; lia).
  replace ((N - 1 - 1 + 1) / 2)%Z with m by (subst N; Z.to_euclidean_division_equations; lia).
  replace ((N - 1) / 2)%Z with m by (subst N; Z.to_euclidean_division_equations; lia).
  replace ((N - 1 - 1) / 2)%Z with (m - 1)%Z by (subst N; Z.to_euclidean_division_equations; lia).
  replace (Z.to_nat m) with (S (Z.to_nat (m - 1))) at 2 by lia.
  rewrite every_second_S, Sigma_app, Sigma_one.
  replace (2 + 2 * Z.of_nat (Z.to_nat (m - 1)))%Z with (N - 1)%Z by lia.
  fold c.
  assert (Hnode : forall k, node a c (N - 1) k = node a b N k)
    by (intros k; unfold node; now rewrite Hstep).
  rewrite !(Sigma_ext _ (fun k => g (node a c (N - 1) k)) (fun k => g (node a b N k)))
    by (intros; now rewrite Hnode).
  field.
Qed.

Lemma simpson_odd_N_last_bin_witness :
  value_of (integral f 0 1 5) =
    Some (simpson_sum f 0 (node 0 1 5 (5 - 1)) (5 - 1)
          + step 0 1 5 / 3 * (f (node 0 1 5 (5 - 1)) + f 1)).
Proof.
  apply (simpson_odd_N_last_bin f 0 1 5); [lra | lia | reflexivity |].
  apply integral_value; [lia|].
  change (5 - 1)%Z with 4%Z. unfold node, step. lra.
Defined.

(** ** The Euler-McLaurin estimate against round-off *)




Lemma error_mc_x4 (h : R) : error_mc h 0 4 = h ^ 2 / 3.
Proof.
  unfold error_mc.
  replace (1 / 12 * h ^ 2 * (0 - 4)) with (- (h ^ 2 / 3)) by field.
  rewrite Rabs_Ropp. apply Rabs_right. nra.
Qed.

Lemma h_opt_pos (eps : R) : 0 < h_opt eps.
Proof. unfold h_opt, Rpower. apply exp_pos. Qed.

Lemma h_opt_balances (eps : R) :
  0 < eps -> h_opt eps ^ 2 / 3 = std eps (h_opt eps).
Proof.
  intros Heps. unfold std.
  pose proof (h_star_balances 2 (1 / 3) eps ltac:(lra) Heps) as H.
  rewrite h_star_trapezoid in H.
  rewrite Rpower_Ropp, Rpower_sqrt in H by apply h_opt_pos.
  lra.
Qed.

(** X22. The estimate [h^2/3] of the notebook's example meets the round-off
    estimate [eps / sqrt h] exactly at [h = (3 eps)^(2/5)]: below that bin
    size the round-off estimate is the larger one, above it the smaller. *)
Theorem roundoff_crossover (eps h : R) :
  0 < eps -> 0 < h ->
  (h < h_opt eps -> error_mc h 0 4 < std eps h) /\
  (h = h_opt eps -> error_mc h 0 4 = std eps h) /\
  (h_opt eps < h -> std eps h < error_mc h 0 4).
Proof.
  intros Heps Hh.
  pose proof (h_opt_pos eps) as HH.
  pose proof (h_opt_balances eps Heps) as Hbal.
  rewrite error_mc_x4.
  assert (Hstd : forall x y, 0 < x -> x < y -> std eps y < std eps x).
  { intros x y Hx Hxy. unfold std, Rdiv.
    apply Rmult_lt_compat_l; [assumption|].
    apply Rinv_lt_contravar.
    - apply Rmult_lt_0_compat; apply sqrt_lt_R0; lra.
    - apply sqrt_lt_1; lra. }
  split; [|split].
  - intros Hlt. pose proof (Hstd h (h_opt eps) Hh Hlt).
    assert (h ^ 2 < h_opt eps ^ 2) by nra. lra.
  - intros ->. exact Hbal.
  - intros Hlt. pose proof (Hstd (h_opt eps) h HH Hlt).
    assert (h_opt eps ^ 2 < h ^ 2) by nra. lra.
Qed.

Lemma roundoff_crossover_witness :
  error_mc (h_opt 1) 0 4 = std 1 (h_opt 1).
Proof.
  apply (roundoff_crossover 1 (h_opt 1)); [lra | apply h_opt_pos | reflexivity].
Defined.

(** ** [arange] is half open *)

Lemma arange_grid_below (start stop step : R) (xs : list R) (i : nat) :
  0 < step ->
  value_of (arange start stop step) = Some xs ->
  (In (start + INR i * step) xs <-> start + INR i * step < stop).
Proof.
  intros Hstep H. unfold arange in H.
  destruct (Req_dec_T step 0) as [E | _]; [lra|].
  unfold ret in H. cbn [value_of] in H. injection H as <-.
  set (q := (stop - start) / step).
  pose proof (Zceil_bound q) as Hq.
  assert (Hlt : start + INR i * step < stop <-> INR i < q).
  { unfold q. split; intros H.
    - apply Rmult_lt_reg_r with step; [assumption|].
      unfold Rdiv. rewrite Rmult_assoc, Rinv_l, Rmult_1_r by lra. lra.
    - apply Rmult_lt_compat_r with (r := step) in H; [|assumption].
      unfold Rdiv in H. rewrite Rmult_assoc, Rinv_l, Rmult_1_r in H by lra. lra. }
  rewrite Hlt, in_map_iff. split.
  - intros [j [Hj Hin]]. apply in_seq in Hin.
    assert (Hij : INR j = INR i).
    { apply Rmult_eq_reg_r with step; lra. }
    apply INR_eq in Hij. subst j.
    assert (Hz : (Z.of_nat i + 1 <= Zceil q)%Z) by lia.
    apply IZR_le in Hz. rewrite plus_IZR, <- INR_IZR_INZ in Hz. lra.
  - intros Hi. exists i. split; [reflexivity|].
    apply in_seq. split; [lia|]. cbn [Nat.add].
    assert (Hz : (Z.of_nat i < Zceil q)%Z).
    { apply lt_IZR. rewrite <- INR_IZR_INZ. lra. }
    lia.
Qed.

(** X23. With a positive step, [arange(start, stop, step)] holds exactly the grid
    points [start + i * step] that lie below [stop]; [stop] itself is never
    in the array. *)
Theorem arange_half_open (start stop step : R) :
  0 < step ->
  exists xs,
    value_of (arange start stop step) = Some xs /\
    (forall x, In x xs -> exists i : nat, x = start + INR i * step) /\
    (forall i : nat, In (start + INR i * step) xs <-> start + INR i * step < stop) /\
    ~ In stop xs.
Proof.
  intros Hstep.
  destruct (arange start stop step) as [xs t|e] eqn:E.
  - exists xs. split; [reflexivity|].
    assert (Hxs : value_of (arange start stop step) = Some xs) by now rewrite E.
    assert (Hgrid : forall x, In x xs -> exists i : nat, x = start + INR i * step).
    { intros x Hx. unfold arange in E.
      destruct (Req_dec_T step 0); [discriminate E|].
      unfold ret in E. injection E as <- _.
      apply in_map_iff in Hx. destruct Hx as [i [<- _]]. now exists i. }
    split; [exact Hgrid|]. split.
    + intros i. now apply arange_grid_below.
    + intros Hin. destruct (Hgrid stop Hin) as [i Hi].
      rewrite Hi in Hin at 1.
      apply (arange_grid_below start stop step xs i Hstep Hxs) in Hin. lra.
  - unfold arange in E. destruct (Req_dec_T step 0); [lra | discriminate E].
Qed.

Lemma arange_half_open_witness :
  exists xs,
    value_of (arange 0 1 (/ 2)) = Some xs /\
    (forall x, In x xs -> exists i : nat, x = 0 + INR i * / 2) /\
    (forall i : nat, In (0 + INR i * / 2) xs <-> 0 + INR i * / 2 < 1) /\
    ~ In 1 xs.
Proof.
  apply (arange_half_open 0 1 (/ 2)). lra.
Defined.

(** * The estimate of the second cell and its integrand *)






(** * The cells in double precision *)

(** Puts the exact value of every double in the goal in closed form. *)
Ltac exact_value :=
  unfold B2R;
  repeat match goal with
    | |- context [Double.to_Q ?x] =>
        let q := eval vm_compute in (Double.to_Q x) in
        change (Double.to_Q x) with q
    end;
  unfold Q2R; cbn [QArith_base.Qnum QArith_base.Qden].

Lemma trapezoid_formula_three : trapezoid_formula f 0 1 3 = 115 / 486.
Proof. unroll_formula. unfold f. field. Qed.

Lemma simpson_formula_six : simpson_formula f 0 1 6 = 389 / 1944.
Proof. unroll_formula. unfold f. field. Qed.

Lemma simpson_sum_five : simpson_sum f 0 1 5 = 1497 / 9375.
Proof. unroll_formula. unfold f. field. Qed.

(** C1.  The Trapezoidal cell should return
    [h (f(a)/2 + sum_{k=1}^{N-1} f(a + k h) + f(b)/2)] for every [N >= 1]; run
    on doubles with [x**4] on [0,1] and [N = 3] it does not.  There
    [arange(a+h, b, h)] has three items, the last one [b] itself, so the cell
    evaluates the integrand five times, [f(b)] enters the sum a second time
    with weight one, and the result is [0.56996] where the formula gives
    [115/486 = 0.23663]. *)
Theorem trapezoid_three_bins_double :
  exists v t,
    Double.integral1 Double.f (Double.of_Z 0) (Double.of_Z 1) 3 = Double.Done v t /\
    length t = 5%nat /\
    length (filter (fun x => PrimFloat.eqb x (Double.of_Z 1)) t) = 2%nat /\
    5699 / 10000 < B2R v < 57 / 100 /\
    trapezoid_formula f 0 1 3 = 115 / 486 /\
    B2R v - trapezoid_formula f 0 1 3 > 1 / 3.
Proof.
  eexists. eexists. split; [vm_compute; reflexivity|].
  split; [reflexivity|]. split; [reflexivity|].
  rewrite trapezoid_formula_three. exact_value.
  repeat split; lra.
Qed.

(** C2.  Simpson's cell should return
    [(h/3) (f(a) + 4 sum_{k odd} f(a + k h) + 2 sum_{k even} f(a + k h) + f(b))]
    for every even [N >= 2]; run on doubles with [x**4] on [0,1] and [N = 6]
    it does not.  There [arange(a+2*h, b, 2*h)] has three items, the last one
    [b] itself, so [f(b)] enters a second time with weight two, and the
    result is [0.31121] where the formula gives [389/1944 = 0.20010]. *)
Theorem simpson_six_bins_double :
  exists v t,
    Double.integral Double.f (Double.of_Z 0) (Double.of_Z 1) 6 = Double.Done v t /\
    length t = 8%nat /\
    length (filter (fun x => PrimFloat.eqb x (Double.of_Z 1)) t) = 2%nat /\
    3112 / 10000 < B2R v < 3113 / 10000 /\
    simpson_formula f 0 1 6 = 389 / 1944 /\
    B2R v - simpson_formula f 0 1 6 > 1 / 10.
Proof.
  eexists. eexists. split; [vm_compute; reflexivity|].
  split; [reflexivity|]. split; [reflexivity|].
  rewrite simpson_formula_six. exact_value.
  repeat split; lra.
Qed.

(** C8.  Each cell should evaluate the integrand at the [N + 1] nodes and
    nowhere else; run on doubles it does not.  On [0,1] the Trapezoidal cell
    with [N = 3] evaluates it five times, twice at [b], and Simpson's cell
    with [N = 119] evaluates it [121] times, once at a point beyond [b]. *)
Theorem evaluation_points_double :
  (exists v t,
     Double.integral1 Double.f (Double.of_Z 0) (Double.of_Z 1) 3 = Double.Done v t /\
     length t = 5%nat /\
     length (filter (fun x => PrimFloat.eqb x (Double.of_Z 1)) t) = 2%nat) /\
  (exists v t,
     Double.integral Double.f (Double.of_Z 0) (Double.of_Z 1) 119 = Double.Done v t /\
     length t = 121%nat /\
     exists x, In x t /\ 1 < B2R x).
Proof.
  split.
  - eexists. eexists. split; [vm_compute; reflexivity|].
    split; reflexivity.
  - eexists. eexists. split; [vm_compute; reflexivity|].
    split; [reflexivity|].
    eexists. split.
    + do 59 right. left. reflexivity.
    + exact_value. lra.
Qed.

(** C3, as stated, fails: Simpson's cell rejects no odd [N].  Run on doubles
    with [x**4] on [0,1] and [N = 7] it returns [0.35638].  With [N = 5] it
    returns [1497/9375 = 0.15968] in exact arithmetic, and the same on
    doubles up to rounding. *)
Lemma simpson_odd_N_returns :
  (exists v t,
     Double.integral Double.f (Double.of_Z 0) (Double.of_Z 1) 7 = Double.Done v t /\
     3563 / 10000 < B2R v < 3564 / 10000) /\
  (value_of (integral f 0 1 5) = Some (1497 / 9375) /\
   exists v t,
     Double.integral Double.f (Double.of_Z 0) (Double.of_Z 1) 5 = Double.Done v t /\
     Rabs (B2R v - 1497 / 9375) < / 1000000000000) /\
  ~ (forall (g : R -> R) (a b : R) (N : Z),
        Z.odd N = true \/ (N < 2)%Z -> value_of (integral g a b N) = None) /\
  ~ (forall (g : PrimFloat.float -> PrimFloat.float) (a b : PrimFloat.float)
            (N : Z),
        Z.odd N = true \/ (N < 2)%Z ->
        exists e, Double.integral g a b N = Double.Fail e).
Proof.
  assert (E5 : value_of (integral f 0 1 5) = Some (1497 / 9375)).
  { rewrite integral_value by (lia || lra). now rewrite simpson_sum_five. }
  split; [|split; [split|split]].
  - eexists. eexists. split; [vm_compute; reflexivity|].
    exact_value. lra.
  - exact E5.
  - eexists. eexists. split; [vm_compute; reflexivity|].
    exact_value. apply Rabs_def1; lra.
  - intros H. specialize (H f 0 1 5%Z (or_introl eq_refl)).
    rewrite E5 in H. discriminate H.
  - intros H.
    destruct (H Double.f (Double.of_Z 0) (Double.of_Z 1) 7%Z (or_introl eq_refl))
      as [e He].
    vm_compute in He. discriminate He.
Qed.
